(** * Download service: job registry, pipeline executor and progress channels

    A shallow embedding of the download-job part of the server
    ([index.ts], with [db/database.ts]) and the properties of its
    specification.

    The server is single-threaded: a block of assignments between two
    [await]s is atomic, and one job object is mutated by exactly one
    [processDownloadJob] task.  A run of the task is therefore modelled as
    a computation in a state-and-exception monad over the process state
    (the [jobs] cache, the [download_jobs] table) that appends what it does
    to a trace.  Everything the task asks of the outside (S3, archiver,
    presigner, SQLite faults, the clock) is answered by an environment
    [Env] of oracles, so a theorem quantified over [Env] holds for every
    behaviour of the outside. *)

From Stdlib Require Import ZArith String List Lia.
From Stdlib Require Import Uint63 PrimFloat FloatOps SpecFloat.
From stdpp Require Import base option list strings pretty gmap.

Local Open Scope string_scope.
Local Open Scope Z_scope.
Local Open Scope list_scope.

(** ** JavaScript values *)

(** A thrown value: an [Error] instance with its [message], or anything
    else. *)
Inductive Thrown :=
  | ErrorObj (message : string)
  | NotAnError.

(** [error instanceof Error ? error.message : "Unknown error"] *)
Definition error_message (error : Thrown) : string :=
  match error with
  | ErrorObj message => message
  | NotAnError => "Unknown error"
  end.

(** A [Buffer]. *)
Abbreviation Buffer := (list Byte.byte).

(** [Math.round] on a double: the nearest integer, ties towards +infinity.
    The double is decoded to mantissa and exponent and rounded exactly.
    NaN and the infinities have no integer value; [processDownloadJob]
    divides by [fileKeys.length] only inside the loop over [fileKeys], where
    the length is at least 1, so they do not arise. *)
Definition Math_round (x : float) : Z :=
  match Prim2SF x with
  | S754_zero _ => 0
  | S754_finite s m e =>
      let v := if s then Z.neg m else Z.pos m in
      if 0 <=? e then v * 2 ^ e
      else (2 * v + 2 ^ (- e)) / 2 ^ (1 - e)
  | S754_infinity _ => 0
  | S754_nan => 0
  end.

(** A small non-negative integer as a JavaScript number (exact below 2^53). *)
Definition number_of_nat (k : nat) : float :=
  PrimFloat.of_uint63 (Uint63.of_Z (Z.of_nat k)).

(** ** The job data model *)

Inductive Status := queued | processing | completed | failed.

Global Instance Status_eq_dec : EqDecision Status.
Proof. solve_decision. Defined.

(** [interface JobStatus]; dates are milliseconds since the epoch. *)
Record JobStatus := mkJobStatus {
  jobId : string;
  status : Status;
  fileKeys : list string;
  progress : Z;
  filesCompleted : Z;
  totalFiles : Z;
  downloadUrl : option string;
  error : option string;
  createdAt : Z;
  updatedAt : Z;
}.

(** The [updates] argument of [dbOperations.updateJob]; the same fields are
    the ones a block of assignments to the cached job object sets. *)
Record Updates := mkUpdates {
  u_status : option Status;
  u_progress : option Z;
  u_filesCompleted : option Z;
  u_downloadUrl : option string;
  u_error : option string;
  u_updatedAt : Z;
}.

(** [a ?? b] *)
Definition nullish {A} (a : option A) (b : A) : A :=
  match a with
  | Some x => x
  | None => b
  end.

(** [a ?? b] where [b] may itself be null. *)
Definition nullish_opt {A} (a b : option A) : option A :=
  match a with
  | Some x => Some x
  | None => b
  end.

(** [s || null], [s || undefined] on an optional string: the empty string
    is falsy. *)
Definition or_null (s : option string) : option string :=
  match s with
  | Some EmptyString => None
  | _ => s
  end.

(** The assignments [job.f = v] for the fields present in [u], with
    [job.updatedAt = ...]. *)
Definition assign (u : Updates) (job : JobStatus) : JobStatus :=
  {| jobId := jobId job;
     status := nullish (u_status u) (status job);
     fileKeys := fileKeys job;
     progress := nullish (u_progress u) (progress job);
     filesCompleted := nullish (u_filesCompleted u) (filesCompleted job);
     totalFiles := totalFiles job;
     downloadUrl := nullish_opt (u_downloadUrl u) (downloadUrl job);
     error := nullish_opt (u_error u) (error job);
     createdAt := createdAt job;
     updatedAt := u_updatedAt u |}.

(** ** db/database.ts: the rows of [download_jobs] *)

Module database.

(** [interface JobRecord].  The [file_keys] column holds the JSON text of
    the array; [JSON.parse] of [JSON.stringify] of an array of strings is
    that array, so the row keeps the list.  The date columns hold ISO
    texts, kept as the milliseconds they denote. *)
Record JobRecord := mkJobRecord {
  job_id : string;
  status : Status;
  file_keys : list string;
  progress : Z;
  files_completed : Z;
  total_files : Z;
  download_url : option string;
  error : option string;
  created_at : Z;
  updated_at : Z;
}.

Definition recordToJobStatus (record : JobRecord) : JobStatus :=
  mkJobStatus
    (job_id record)
    (status record)
    (file_keys record)
    (progress record)
    (files_completed record)
    (total_files record)
    (or_null (download_url record))
    (or_null (error record))
    (created_at record)
    (updated_at record).

(** The row [insertJob.run(...)] writes for a job: [job.downloadUrl || null]
    and [job.error || null] for the two nullable columns. *)
Definition row_of_job (job : JobStatus) : JobRecord :=
  let '(mkJobStatus id st keys p fc tf url err c u) := job in
  {| job_id := id;
     status := st;
     file_keys := keys;
     progress := p;
     files_completed := fc;
     total_files := tf;
     download_url := or_null url;
     error := or_null err;
     created_at := c;
     updated_at := u |}.

(** The row [updateJob.run(...)] leaves: every column is the update's
    value or, when that is absent, the current one. *)
Definition merge_row (updates : Updates) (current : JobRecord) : JobRecord :=
  {| job_id := job_id current;
     status := nullish (u_status updates) (status current);
     file_keys := file_keys current;
     progress := nullish (u_progress updates) (progress current);
     files_completed := nullish (u_filesCompleted updates) (files_completed current);
     total_files := total_files current;
     download_url := nullish_opt (u_downloadUrl updates) (download_url current);
     error := nullish_opt (u_error updates) (error current);
     created_at := created_at current;
     updated_at := u_updatedAt updates |}.

End database.

(** [job.jobId], usable where a parameter is also called [jobId]. *)
Definition job_jobId (job : JobStatus) : string := jobId job.

(** ** The outside world *)

(** What [s3Client.send(new GetObjectCommand(...))] followed by
    [streamToBuffer(response.Body)] yields: a throw from either call, a
    response without [Body], or the bytes of the body. *)
Inductive GetResult :=
  | GetThrows (e : Thrown)
  | NoBody
  | Body (fileData : Buffer).

(** The [Metadata] of the upload. *)
Record Metadata := mkMetadata {
  m_jobId : string;
  m_fileCount : string;
  m_createdAt : Z;
}.

(** The oracles a run consults.  [s3_get i key] answers the fetch of the
    [i]-th loop iteration, so two fetches of one key may differ. *)
Record Env := mkEnv {
  S3_BUCKET_NAME : string;
  sha256_hex : Buffer → string;
  s3_head : string → string → option Thrown;
  s3_get : nat → string → string → GetResult;
  archiver_zip : list (string * Buffer) → Thrown + Buffer;
  s3_put : string → string → Buffer → Metadata → option Thrown;
  getSignedUrl : string → string → Z → Thrown + string;
  db_fault : nat → option Thrown;
  clock : nat → Z;
}.

(** What a run leaves behind for an observer. *)
Inductive Event :=
  | EvAssign (id : string) (u : Updates)
  | EvPut (bucket key : string) (body : Buffer) (metadata : Metadata)
  | EvConsole (line : string).

(** The process state: the [jobs] map, the [download_jobs] table, how many
    database calls and clock readings were made, and the trace. *)
Record State := mkState {
  jobs : gmap string JobStatus;
  db : gmap string database.JobRecord;
  db_ops : nat;
  ticks : nat;
  trace : list Event;
}.

Definition set_jobs (f : gmap string JobStatus → gmap string JobStatus) (st : State) : State :=
  mkState (f (jobs st)) (db st) (db_ops st) (ticks st) (trace st).

Definition set_db (f : gmap string database.JobRecord → gmap string database.JobRecord)
    (st : State) : State :=
  mkState (jobs st) (f (db st)) (db_ops st) (ticks st) (trace st).

Definition tick_db (st : State) : State :=
  mkState (jobs st) (db st) (S (db_ops st)) (ticks st) (trace st).

Definition tick_clock (st : State) : State :=
  mkState (jobs st) (db st) (db_ops st) (S (ticks st)) (trace st).

Definition log_event (e : Event) (st : State) : State :=
  mkState (jobs st) (db st) (db_ops st) (ticks st) (trace st ++ [e])%list.

(** ** Computations that may throw *)

Definition M (A : Type) : Type := State → (Thrown + A) * State.

Definition ret {A} (a : A) : M A := λ st, (inr a, st).

Definition throw {A} (e : Thrown) : M A := λ st, (inl e, st).

Definition bind {A B} (m : M A) (f : A → M B) : M B :=
  λ st, match m st with
        | (inl e, st') => (inl e, st')
        | (inr a, st') => f a st'
        end.

(** [try { m } catch (e) { h e }] *)
Definition try_catch {A} (m : M A) (h : Thrown → M A) : M A :=
  λ st, match m st with
        | (inl e, st') => h e st'
        | (inr a, st') => (inr a, st')
        end.

Notation "'let*' x ':=' m 'in' k" := (bind m (λ x, k))
  (at level 10, x pattern, m at level 100, k at level 200,
   format "'[v' 'let*'  x  ':='  m  'in' '/' k ']'").
Definition emit (e : Event) : M unit := λ st, (inr tt, log_event e st).

Definition console (line : string) : M unit := emit (EvConsole line).

Section Server.

Context (E : Env).

(** [new Date()] *)
Definition new_Date : M Z := λ st, (inr (clock E (ticks st)), tick_clock st).

(** ** db/database.ts: [dbOperations]

    Every call may throw (a closed, locked or full database): the
    [db_fault] oracle decides, by the number of calls made so far. *)
Definition db_call {A} (run : State → A * State) : M A :=
  λ st, match db_fault E (db_ops st) with
        | Some e => (inl e, tick_db st)
        | None => let '(a, st') := run (tick_db st) in (inr a, st')
        end.

(** [INSERT INTO download_jobs]: [job_id] is the primary key, so a second
    insert of one id throws. *)
Definition insertJob (job : JobStatus) : M unit :=
  let* r := db_call (λ st,
        match db st !! jobId job with
        | Some _ => (false, st)
        | None => (true, set_db (insert (jobId job) (database.row_of_job job)) st)
        end) in
  if r : bool then ret tt
  else throw (ErrorObj "UNIQUE constraint failed: download_jobs.job_id").

(** [const current = getJob.get(jobId); if (!current) return;
    updateJob.run(...)] *)
Definition updateJob (jobId : string) (updates : Updates) : M unit :=
  db_call (λ st,
    match db st !! jobId with
    | None => (tt, st)
    | Some current =>
        (tt, set_db (insert jobId (database.merge_row updates current)) st)
    end).

Definition getJob (jobId : string) : M (option JobStatus) :=
  db_call (λ st, (database.recordToJobStatus <$> db st !! jobId, st)).

(** [try { dbOperations.updateJob(jobId, updates) } catch (dbError)
    { console.error(...) }] *)
Definition try_updateJob (jobId : string) (updates : Updates) : M unit :=
  try_catch (updateJob jobId updates)
    (λ _, console ("[Database] Failed to update job " +:+ jobId +:+ ":")).

(** A block of assignments to the job object the [jobs] map holds under
    [jobId].  The task keeps the reference it got from [jobs.get(jobId)];
    no code replaces or deletes the entry of an id that is present, so the
    reference and the entry stay the same object. *)
Definition mutate (jobId : string) (u : Updates) : M unit :=
  λ st, (inr tt, log_event (EvAssign jobId u) (set_jobs (alter (assign u) jobId) st)).

(** ** index.ts: the initiate handler, first half *)

(** [DownloadInitiateRequestSchema]: between 1 and 100 keys, none empty. *)
Definition valid_request (file_keys : list string) : bool :=
  forallb (λ key, (1 <=? String.length key)%nat) file_keys
  && (1 <=? length file_keys)%nat
  && (length file_keys <=? 100)%nat.

(** [for (const key of file_keys)]: a key is pushed to [validKeys] when
    its HEAD on the source bucket resolves, and skipped with a warning
    when it throws. *)
Fixpoint head_check (file_keys validKeys : list string) : M (list string) :=
  match file_keys with
  | [] => ret validKeys
  | key :: rest =>
      match s3_head E "source" key with
      | None => head_check rest (validKeys ++ [key])%list
      | Some _ =>
          let* _ := console ("[Download] File key not found in source bucket: " +:+ key) in
          head_check rest validKeys
      end
  end.

(** [const jobStatus: JobStatus = {...}; jobs.set(jobId, jobStatus)] *)
Definition create (jobId : string) (validKeys : list string) : M unit :=
  let* created := new_Date in
  let* updated := new_Date in
  let jobStatus :=
    {| jobId := jobId;
       status := queued;
       fileKeys := validKeys;
       progress := 0;
       filesCompleted := 0;
       totalFiles := Z.of_nat (length validKeys);
       downloadUrl := None;
       error := None;
       createdAt := created;
       updatedAt := updated |} in
  λ st, (inr tt, set_jobs (insert jobId jobStatus) st).

(** ** index.ts: [processDownloadJob] *)

Record TempFile := mkTempFile {
  key : string;
  data : Buffer;
  checksum : string;
}.

Definition calculateChecksum (data : Buffer) : string := sha256_hex E data.

(** [Math.round(((i + 1) / fileKeys.length) * 25)], in doubles. *)
Definition collect_progress (done n : nat) : Z :=
  Math_round
    (PrimFloat.mul
       (PrimFloat.div (number_of_nat done) (number_of_nat n))
       (number_of_nat 25)).

Definition collected (done n : nat) (at_ : Z) : Updates :=
  {| u_status := None;
     u_progress := Some (collect_progress done n);
     u_filesCompleted := Some (Z.of_nat done);
     u_downloadUrl := None;
     u_error := None;
     u_updatedAt := at_ |}.

Definition status_only (s : Status) (at_ : Z) : Updates :=
  {| u_status := Some s;
     u_progress := None;
     u_filesCompleted := None;
     u_downloadUrl := None;
     u_error := None;
     u_updatedAt := at_ |}.

Definition progress_only (p : Z) (at_ : Z) : Updates :=
  {| u_status := None;
     u_progress := Some p;
     u_filesCompleted := None;
     u_downloadUrl := None;
     u_error := None;
     u_updatedAt := at_ |}.

Definition completed_with (url : string) (at_ : Z) : Updates :=
  {| u_status := Some completed;
     u_progress := Some 100;
     u_filesCompleted := None;
     u_downloadUrl := Some url;
     u_error := None;
     u_updatedAt := at_ |}.

Definition failed_with (message : string) (at_ : Z) : Updates :=
  {| u_status := Some failed;
     u_progress := None;
     u_filesCompleted := None;
     u_downloadUrl := None;
     u_error := Some message;
     u_updatedAt := at_ |}.

(** One iteration of the Phase 1 loop, with its own [try]/[catch]. *)
Definition collect_file (jobId : string) (n i : nat) (key : string)
    (tempFiles : list TempFile) : M (list TempFile) :=
  try_catch
    (match s3_get E i "source" key with
     | GetThrows e => throw e
     | NoBody => throw (ErrorObj ("File " +:+ key +:+ " has no body"))
     | Body fileData =>
         if (length fileData =? 0)%nat
         then throw (ErrorObj ("File " +:+ key +:+ " is empty"))
         else
           let checksum := calculateChecksum fileData in
           let tempFiles := (tempFiles ++ [mkTempFile key fileData checksum])%list in
           let* now := new_Date in
           let u := collected (S i) n now in
           let* _ := mutate jobId u in
           let* _ := try_updateJob jobId u in
           ret tempFiles
     end)
    (λ error,
       let* _ := console ("[Download] Job " +:+ jobId +:+ ": Failed to collect file " +:+ key +:+ ":") in
       throw (ErrorObj ("Failed to collect file " +:+ key +:+ ": " +:+ error_message error))).

(** [for (let i = 0; i < fileKeys.length; i++)], from index [i] on. *)
Fixpoint collect (jobId : string) (n i : nat) (keys : list string)
    (tempFiles : list TempFile) : M (list TempFile) :=
  match keys with
  | [] => ret tempFiles
  | key :: rest =>
      let* tempFiles := collect_file jobId n i key tempFiles in
      collect jobId n (S i) rest tempFiles
  end.

(** [for (const file of tempFiles)]: the integrity check. *)
Fixpoint verify (tempFiles : list TempFile) : M unit :=
  match tempFiles with
  | [] => ret tt
  | file :: rest =>
      let currentChecksum := calculateChecksum (data file) in
      if decide (currentChecksum = checksum file) then verify rest
      else throw (ErrorObj ("Integrity check failed for file " +:+ key file))
  end.

(** [env.S3_BUCKET_NAME || "downloads"] *)
Definition downloads_bucket : string :=
  match S3_BUCKET_NAME E with
  | EmptyString => "downloads"
  | name => name
  end.

(** Phases 2 to 4, on the collected files.  The two [updateJob] calls of
    Phase 2 stand outside any inner [try]. *)
Definition process_collected (jobId : string) (fileKeys : list string)
    (tempFiles : list TempFile) : M unit :=
  let* _ := verify tempFiles in
  let* now := new_Date in
  let* _ := mutate jobId (progress_only 30 now) in
  let* _ := updateJob jobId (progress_only 30 now) in
  let* archiveBuffer :=
    match archiver_zip E (map (λ file, (key file, data file)) tempFiles) with
    | inl err => throw err
    | inr archiveBuffer => ret archiveBuffer
    end in
  let* now := new_Date in
  let* _ := mutate jobId (progress_only 50 now) in
  let* _ := updateJob jobId (progress_only 50 now) in
  let finalKey := jobId +:+ ".zip" in
  let* uploaded := new_Date in
  let metadata := mkMetadata jobId (pretty (length fileKeys)) uploaded in
  let* _ :=
    match s3_put E downloads_bucket finalKey archiveBuffer metadata with
    | Some err => throw err
    | None => emit (EvPut downloads_bucket finalKey archiveBuffer metadata)
    end in
  let* now := new_Date in
  let* _ := mutate jobId (progress_only 75 now) in
  let* _ := try_updateJob jobId (progress_only 75 now) in
  let* downloadUrl :=
    match getSignedUrl E downloads_bucket finalKey 3600 with
    | inl err => throw err
    | inr url => ret url
    end in
  let* now := new_Date in
  let* _ := mutate jobId (completed_with downloadUrl now) in
  try_updateJob jobId (completed_with downloadUrl now).

(** The outer [catch (error)] of [processDownloadJob]. *)
Definition on_error (jobId : string) (error : Thrown) : M unit :=
  let* now := new_Date in
  let u := failed_with (error_message error) now in
  let* _ := mutate jobId u in
  let* _ := try_updateJob jobId u in
  let* _ := console ("[Download] Job " +:+ jobId +:+ " failed:") in
  throw error.

(** The outer [try] of [processDownloadJob]. *)
Definition pipeline (jobId : string) (fileKeys : list string) : M unit :=
  let* tempFiles := collect jobId (length fileKeys) 0 fileKeys [] in
  process_collected jobId fileKeys tempFiles.

(** The [finally] block empties the task-local [tempFiles]; nothing
    outside the task can see that array, so it leaves no mark here. *)
Definition processDownloadJob (jobId : string) (fileKeys : list string) : M unit :=
  λ st,
    match jobs st !! jobId with
    | None => ret tt st
    | Some _ =>
        (let* now := new_Date in
         let* _ := mutate jobId (status_only processing now) in
         let* _ := try_updateJob jobId (status_only processing now) in
         try_catch (pipeline jobId fileKeys) (on_error jobId)) st
    end.

(** ** index.ts: the initiate handler, second half *)

(** [processDownloadJob(jobId, validKeys).catch((error) => {...})] *)
Definition on_rejected (jobId : string) (error : Thrown) : M unit :=
  let* _ := console ("[Download] Job " +:+ jobId +:+ " failed:") in
  λ st,
    match jobs st !! jobId with
    | None => ret tt st
    | Some _ =>
        (let* now := new_Date in
         let u := failed_with (error_message error) now in
         let* _ := mutate jobId u in
         try_updateJob jobId u) st
    end.

(** The detached task of a job, run until it settles. *)
Definition background (jobId : string) (validKeys : list string) : M unit :=
  try_catch (processDownloadJob jobId validKeys) (on_rejected jobId).

Inductive InitiateResponse :=
  | Initiated (jobId : string) (status : Status) (totalFiles : Z)
      (subscribeUrl statusUrl : string)
  | BadRequest (error message : string).

(** The handler of [POST /v1/download/initiate].  [uuid] is what
    [crypto.randomUUID()] returns.  The handler answers as soon as the
    task is launched; here the task is run to its end before the answer
    is returned, so that the final state shows what the job became. *)
Definition initiate (uuid : string) (file_keys : list string) : M InitiateResponse :=
  if valid_request file_keys then
    let* validKeys := head_check file_keys [] in
    if (length validKeys =? 0)%nat then
      ret (BadRequest "Validation Error" "No valid file keys found in source bucket")
    else
      let* _ := create uuid validKeys in
      let* _ := background uuid validKeys in
      ret (Initiated uuid queued (Z.of_nat (length validKeys))
             ("/v1/download/subscribe/" +:+ uuid)
             ("/v1/download/status/" +:+ uuid))
  else ret (BadRequest "Bad Request" "Invalid request body").

(** ** index.ts: [GET /v1/download/subscribe/:jobId] *)

(** The JSON of a message: [downloadUrl] and [error] are absent from the
    text when they are not written or are [undefined]. *)
Record Payload := mkPayload {
  p_jobId : string;
  p_status : Status;
  p_progress : Z;
  p_filesCompleted : Z;
  p_totalFiles : Z;
  p_downloadUrl : option string;
  p_error : option string;
}.

Inductive SSEMessage :=
  | JobNotFound
  | SSE (event : string) (payload : Payload).

(** "Try memory cache first, then SQLite". *)
Definition cache_then_db (jobId : string) : M (option JobStatus) :=
  λ st,
    match jobs st !! jobId with
    | Some job => ret (Some job) st
    | None =>
        (let* job := getJob jobId in
         match job with
         | Some j => λ st, (inr (Some j), set_jobs (insert jobId j) st)
         | None => ret None
         end) st
    end.

(** The start of the stream: the messages written and, when the job was
    found, [lastProgress] and [lastStatus]. *)
Definition subscribe_attach (jobId : string)
    : M (list SSEMessage * option (Z * Status)) :=
  let* job := cache_then_db jobId in
  match job with
  | None => ret ([JobNotFound], None)
  | Some job =>
      ret ([SSE "progress"
              (mkPayload (job_jobId job) (status job) (progress job)
                 (filesCompleted job) (totalFiles job) None None)],
           Some (progress job, status job))
  end.

(** One firing of the [setInterval] callback on the state of that moment:
    the messages written, the new last values, and whether the interval
    is still armed. *)
Definition on_interval (jobId : string) (last : Z * Status) (st : State)
    : list SSEMessage * (Z * Status) * bool :=
  match jobs st !! jobId with
  | None => ([], last, false)
  | Some currentJob =>
      if bool_decide (progress currentJob ≠ last.1 ∨ status currentJob ≠ last.2) then
        let eventType :=
          match status currentJob with
          | completed => "complete"
          | failed => "error"
          | _ => "progress"
          end in
        ([SSE eventType
            (mkPayload (job_jobId currentJob) (status currentJob)
               (progress currentJob) (filesCompleted currentJob)
               (totalFiles currentJob) (downloadUrl currentJob)
               (error currentJob))],
         (progress currentJob, status currentJob),
         negb (bool_decide (status currentJob = completed ∨ status currentJob = failed)))
      else ([], last, true)
  end.

(** The firings of the interval, one per state in [later], until it is
    cleared. *)
Fixpoint poll (jobId : string) (last : Z * Status) (later : list State)
    : list SSEMessage :=
  match later with
  | [] => []
  | st :: later =>
      let '(messages, last, armed) := on_interval jobId last st in
      (messages ++ if armed : bool then poll jobId last later else [])%list
  end.

(** Everything a subscriber receives when it attaches in state [st] and
    the interval then fires in the states [later]. *)
Definition subscribe (jobId : string) (later : list State) : M (list SSEMessage) :=
  let* attached := subscribe_attach jobId in
  match attached with
  | (messages, None) => ret messages
  | (messages, Some last) => ret (messages ++ poll jobId last later)%list
  end.

(** ** index.ts: [GET /v1/download/status/:jobId] *)

Record StatusBody := mkStatusBody {
  b_jobId : string;
  b_status : Status;
  b_progress : Z;
  b_filesCompleted : Z;
  b_totalFiles : Z;
  b_downloadUrl : option string;
  b_error : option string;
  b_createdAt : Z;
  b_updatedAt : Z;
}.

Inductive StatusResponse :=
  | NotFound404
  | Status200 (body : StatusBody).

Definition status_endpoint (jobId : string) (st : State) : StatusResponse :=
  match jobs st !! jobId with
  | None => NotFound404
  | Some job =>
      Status200
        (mkStatusBody (job_jobId job) (status job) (progress job)
           (filesCompleted job) (totalFiles job) (downloadUrl job)
           (error job) (createdAt job) (updatedAt job))
  end.

End Server.

(** ** What an observer sees of a run *)

(** The blocks of assignments a trace holds for the job [id], in order. *)
Definition assigns (id : string) (tr : list Event) : list Updates :=
  omap (λ e, match e with
             | EvAssign id' u => if decide (id' = id) then Some u else None
             | _ => None
             end) tr.

(** The objects a trace wrote to a bucket: bucket and key, in order. *)
Definition uploads (tr : list Event) : list (string * string) :=
  omap (λ e, match e with
             | EvPut bucket key _ _ => Some (bucket, key)
             | _ => None
             end) tr.

(** The job object after each block of assignments. *)
Fixpoint snapshots (job : JobStatus) (us : list Updates) : list JobStatus :=
  match us with
  | [] => []
  | u :: us => assign u job :: snapshots (assign u job) us
  end.

(** The observed history of a job: the record as created, then the record
    after each block. *)
Definition history (job : JobStatus) (us : list Updates) : list JobStatus :=
  job :: snapshots job us.

Definition apply_all (us : list Updates) (job : JobStatus) : JobStatus :=
  foldl (λ job u, assign u job) job us.

(** The progress values a list of blocks writes. *)
Definition progress_written (us : list Updates) : list Z := omap u_progress us.

(** A block, and a job, without their time stamp. *)
Definition strip (u : Updates) : Updates :=
  mkUpdates (u_status u) (u_progress u) (u_filesCompleted u) (u_downloadUrl u)
    (u_error u) 0.

Definition untimed (job : JobStatus) : JobStatus :=
  mkJobStatus (jobId job) (status job) (fileKeys job) (progress job)
    (filesCompleted job) (totalFiles job) (downloadUrl job) (error job)
    (createdAt job) 0.

(** [terminal s]: Completed or Failed. *)
Definition terminal (s : Status) : Prop := s = completed ∨ s = failed.

(** [names message key]: the key occurs in the message. *)
Definition names (message key : string) : Prop :=
  ∃ before after, message = before +:+ key +:+ after.

(** The keys that pass the HEAD check. *)
Definition surviving (E : Env) (file_keys : list string) : list string :=
  filter (λ key, s3_head E "source" key = None) file_keys.

(** The job record the handler creates for [validKeys]. *)
Definition created_as (id : string) (validKeys : list string) (job : JobStatus) : Prop :=
  jobId job = id ∧ status job = queued ∧ fileKeys job = validKeys
  ∧ progress job = 0 ∧ filesCompleted job = 0
  ∧ totalFiles job = Z.of_nat (length validKeys)
  ∧ downloadUrl job = None ∧ error job = None.

(** A fetch that Phase 1 accepts, and one it does not, with the message of
    the error thrown inside the loop body. *)
Definition fetch_ok (r : GetResult) : Prop :=
  ∃ fileData, r = Body fileData ∧ fileData ≠ [].

Definition fetch_fails (key : string) (r : GetResult) (inner : string) : Prop :=
  match r with
  | GetThrows e => inner = error_message e
  | NoBody => inner = "File " +:+ key +:+ " has no body"
  | Body fileData => fileData = [] ∧ inner = "File " +:+ key +:+ " is empty"
  end.

(** The checksum a collected file carries is the checksum of its bytes. *)
Definition consistent (E : Env) (file : TempFile) : Prop :=
  calculateChecksum E (data file) = checksum file.

(** The blocks of Phase 1 for the files [from + 1 .. from + count] of [n],
    without time stamps. *)
Definition collects (n from count : nat) : list Updates :=
  map (λ k, collected k n 0) (seq (S from) count).

(** The blocks of a run that goes through, without time stamps. *)
Definition success_blocks (n : nat) (url : string) : list Updates :=
  status_only processing 0 :: collects n 0 n
    ++ [progress_only 30 0; progress_only 50 0; progress_only 75 0;
        completed_with url 0].

(** The two blocks of a failure: the [catch] of [processDownloadJob] and
    the [.catch] of the handler. *)
Definition failure_blocks (message : string) : list Updates :=
  [failed_with message 0; failed_with message 0].

(** How the [try] of [processDownloadJob] can be left by a throw: the error
    thrown, the blocks of assignments made inside the [try] until then
    (without time stamps), and the objects uploaded until then.  The throw
    comes out of Phase 1 at the first fetch that is not accepted; or, with
    every file collected, before the upload is made (a database write or the
    archiver after the checkpoint 30, a database write or the upload after
    the checkpoint 50); or after it (the presigner). *)
Inductive Interrupted (E : Env) (id : string) (keys : list string)
    : Thrown → list Updates → list (string * string) → Prop :=
  | in_collect before key after inner :
      keys = before ++ key :: after →
      (∀ i k, before !! i = Some k → fetch_ok (s3_get E i "source" k)) →
      fetch_fails key (s3_get E (length before) "source" key) inner →
      Interrupted E id keys
        (ErrorObj ("Failed to collect file " +:+ key +:+ ": " +:+ inner))
        (collects (length keys) 0 (length before))
        []
  | before_upload e checkpoints :
      (∀ i k, keys !! i = Some k → fetch_ok (s3_get E i "source" k)) →
      checkpoints = [30] ∨ checkpoints = [30; 50] →
      Interrupted E id keys e
        (collects (length keys) 0 (length keys)
           ++ map (λ p, progress_only p 0) checkpoints)
        []
  | after_upload e :
      (∀ i k, keys !! i = Some k → fetch_ok (s3_get E i "source" k)) →
      Interrupted E id keys e
        (collects (length keys) 0 (length keys)
           ++ map (λ p, progress_only p 0) [30; 50; 75])
        [(downloads_bucket E, id +:+ ".zip")].

(** How the run of a job over [keys] can go: the blocks of assignments it
    makes, without time stamps, and the objects it uploads. *)
Inductive Outcome (E : Env) (id : string) (keys : list string)
    : list Updates → list (string * string) → Prop :=
  | gave_up e cs ps :
      Interrupted E id keys e cs ps →
      Outcome E id keys
        (status_only processing 0 :: cs ++ failure_blocks (error_message e)) ps
  | succeeded url :
      (∀ i k, keys !! i = Some k → fetch_ok (s3_get E i "source" k)) →
      Outcome E id keys (success_blocks (length keys) url)
        [(downloads_bucket E, id +:+ ".zip")].

(** From [st] to [st'] the job [id] received the blocks [cs] (up to their
    time stamps) and nothing else touched it, the uploads [ps] were made,
    and no row was added to or removed from the table. *)
Definition Moves (id : string) (st st' : State)
    (cs : list Updates) (ps : list (string * string)) : Prop :=
  (∃ us, map strip us = cs
         ∧ assigns id (trace st') = assigns id (trace st) ++ us
         ∧ jobs st' !! id = apply_all us <$> jobs st !! id)
  ∧ uploads (trace st') = uploads (trace st) ++ ps
  ∧ dom (db st') = dom (db st).

(** The result and final state of [m] from [st] satisfy [Q]. *)
Definition wp {A} (m : M A) (Q : Thrown + A → State → Prop) (st : State) : Prop :=
  Q (m st).1 (m st).2.

(** ** Histories *)

(** What [initiate] leaves for a request it accepts: the job as created,
    the blocks [us] it then received, and how the run went. *)
Definition Ran (E : Env) (uuid : string) (validKeys : list string) (st st' : State) : Prop :=
  ∃ job us ps,
    created_as uuid validKeys job
    ∧ assigns uuid (trace st') = assigns uuid (trace st) ++ us
    ∧ jobs st' !! uuid = Some (apply_all us job)
    ∧ uploads (trace st') = uploads (trace st) ++ ps
    ∧ dom (db st') = dom (db st)
    ∧ Outcome E uuid validKeys (map strip us) ps.

(** One step of a history: what may change between two successive states. *)
Definition step_ok (a b : JobStatus) : Prop :=
  progress a ≤ progress b
  ∧ filesCompleted a ≤ filesCompleted b
  ∧ totalFiles b = totalFiles a
  ∧ (terminal (status a) → status b = status a).

(** One state of a history: the counters are within the total, and the
    result and the error agree with the status. *)
Definition state_ok (a : JobStatus) : Prop :=
  0 ≤ filesCompleted a ≤ totalFiles a
  ∧ match status a with
    | queued | processing => downloadUrl a = None ∧ error a = None
    | completed => is_Some (downloadUrl a) ∧ error a = None
    | failed => downloadUrl a = None ∧ is_Some (error a)
    end.

(** Every step from [a] through [l] is a good step to a good state. *)
Fixpoint path_ok (a : JobStatus) (l : list JobStatus) : Prop :=
  match l with
  | [] => True
  | b :: l => step_ok a b ∧ state_ok b ∧ path_ok b l
  end.

(** The job is being processed: [n] files in all, nothing published. *)
Definition working (n : nat) (a : JobStatus) : Prop :=
  status a = processing
  ∧ totalFiles a = Z.of_nat n
  ∧ 0 ≤ filesCompleted a ≤ Z.of_nat n
  ∧ downloadUrl a = None ∧ error a = None.

(** The table of the Phase 1 progress values for up to 100 files: none
    for no file done, never decreasing, at most 25. *)
Definition progress_table_ok : bool :=
  forallb (λ n,
    (collect_progress 0 n =? 0)
    && forallb (λ i,
         (collect_progress i n <=? collect_progress (S i) n)
         && (collect_progress (S i) n <=? 25)) (seq 0 n))
    (seq 1 100).

(** The history from [a] under the blocks [us] is good throughout. *)
Definition good (a : JobStatus) (us : list Updates) : Prop :=
  path_ok a (snapshots a us).

(** ** Concrete worlds and states *)

(** A world in which every key exists except ["missing.txt"], every fetch
    returns one byte except that of ["gone.txt"], and nothing else fails.
    The digest is a stand-in; the theorems above hold for every digest. *)
Definition demo_env : Env :=
  {| S3_BUCKET_NAME := "";
     sha256_hex := λ data, pretty (length data);
     s3_head := λ _ key,
       if decide (key = "missing.txt") then Some (ErrorObj "NotFound") else None;
     s3_get := λ _ _ key,
       if decide (key = "gone.txt") then GetThrows (ErrorObj "NoSuchKey")
       else Body [Byte.x2a];
     archiver_zip := λ files, inr (concat (map snd files));
     s3_put := λ _ _ _ _, None;
     getSignedUrl := λ bucket key _, inr ("http://localhost:9000/" +:+ bucket +:+ "/" +:+ key);
     db_fault := λ _, None;
     clock := Z.of_nat |}.

(** The same world, except that the third database call throws. *)
Definition busy_env : Env :=
  {| S3_BUCKET_NAME := S3_BUCKET_NAME demo_env;
     sha256_hex := sha256_hex demo_env;
     s3_head := s3_head demo_env;
     s3_get := s3_get demo_env;
     archiver_zip := archiver_zip demo_env;
     s3_put := s3_put demo_env;
     getSignedUrl := getSignedUrl demo_env;
     db_fault := λ n,
       if decide (n = 2%nat) then Some (ErrorObj "SQLITE_BUSY: database is locked")
       else None;
     clock := clock demo_env |}.

(** A fresh process on an empty table. *)
Definition empty_state : State := mkState ∅ ∅ 0 0 [].

(** A process restarted on a table that holds the row of a finished job. *)
Definition restarted_state : State :=
  mkState ∅
    {[ "job-0" :=
         database.mkJobRecord "job-0" completed ["a.txt"] 100 1 1
           (Some "http://localhost:9000/downloads/job-0.zip") None 0 9 ]}
    0 0 [].

(** A process whose cache holds a finished job. *)
Definition finished_state : State :=
  mkState
    {[ "job-0" :=
         mkJobStatus "job-0" completed ["a.txt"] 100 1 1
           (Some "http://localhost:9000/downloads/job-0.zip") None 0 9 ]}
    ∅ 0 0 [].

(** ** Uploads *)

(** The PutObject calls of a trace, whole. *)
Definition put_events (tr : list Event) : list Event :=
  omap (λ e, match e with
             | EvPut _ _ _ _ => Some e
             | _ => None
             end) tr.

(** The entries [archive.append(file.data, { name: file.key })] adds. *)
Definition entries (tempFiles : list TempFile) : list (string * Buffer) :=
  map (λ file, (key file, data file)) tempFiles.

Definition body_of (r : GetResult) : Buffer :=
  match r with
  | Body fileData => fileData
  | _ => []
  end.

(** Each key with the bytes the source bucket returns for it, from loop
    index [i] on. *)
Fixpoint fetched (E : Env) (i : nat) (keys : list string) : list (string * Buffer) :=
  match keys with
  | [] => []
  | k :: rest => (k, body_of (s3_get E i "source" k)) :: fetched E (S i) rest
  end.

(** From [st] to [st'] the PutObject calls [evs] were made. *)
Definition Puts (st st' : State) (evs : list Event) : Prop :=
  put_events (trace st') = put_events (trace st) ++ evs.

(** ** Messages of the push channel *)

(** The progress and status a message reports. *)
Definition message_state (m : SSEMessage) : option (Z * Status) :=
  match m with
  | JobNotFound => None
  | SSE _ p => Some (p_progress p, p_status p)
  end.

(** Every message reports a progress or status other than the one
    reported before it, [last] being what was reported before the first. *)
Fixpoint each_differs (last : Z * Status) (ms : list SSEMessage) : Prop :=
  match ms with
  | [] => True
  | m :: ms =>
      match message_state m with
      | Some s => s ≠ last ∧ each_differs s ms
      | None => False
      end
  end.

(** The message the interval callback writes for a job it sees changed. *)
Definition update_message (job : JobStatus) : SSEMessage :=
  SSE match status job with
      | completed => "complete"
      | failed => "error"
      | _ => "progress"
      end
    (mkPayload (job_jobId job) (status job) (progress job) (filesCompleted job)
       (totalFiles job) (downloadUrl job) (error job)).

(** ** index.ts: the single-file routes, the health check, the listing *)

(** A thrown value with the [name] of the error. *)
Inductive Failure :=
  | ErrorNamed (name message : string)
  | NotAnErrorValue.

(** An entry of [response.Contents]. *)
Record S3Object := mkS3Object {
  o_Key : option string;
  o_Size : option Z;
  o_LastModified : option Z;
}.

(** What the bucket answers to these routes: to a HEAD, the
    [ContentLength] of the response if it has one; to a GET, the [Body] and
    the [ContentLength] if present; to a listing, [Contents] if present. *)
Record Store := mkStore {
  head_object : string → string → Failure + option Z;
  get_object : string → string → Failure + (option Buffer * option Z);
  list_objects : string → Failure + option (list S3Object);
}.

(** [Math.floor] on a double; NaN and the infinities do not arise from
    [Math.random() * 10000000]. *)
Definition Math_floor (x : float) : Z :=
  match Prim2SF x with
  | S754_zero _ => 0
  | S754_finite s m e =>
      let v := if s then Z.neg m else Z.pos m in
      if 0 <=? e then v * 2 ^ e else v / 2 ^ (- e)
  | S754_infinity _ => 0
  | S754_nan => 0
  end.

(** [sanitizeS3Key]: the schema admits integers only, on which
    [Math.floor] changes nothing and [String] writes the decimal digits. *)
Definition sanitizeS3Key (fileId : Z) : string :=
  pretty (Z.to_N (Z.abs fileId)) +:+ ".zip".

Record Availability := mkAvailability {
  available : bool;
  s3Key : option string;
  size : option Z;
}.

(** [checkS3Availability]; [random] is what [Math.random()] returns. *)
Definition checkS3Availability (E : Env) (S : Store) (random : float) (fileId : Z)
    : Availability :=
  let s3Key := sanitizeS3Key fileId in
  match S3_BUCKET_NAME E with
  | EmptyString =>
      let available := Z.rem fileId 7 =? 0 in
      mkAvailability available
        (if available then Some s3Key else None)
        (if available
         then Some (Math_floor (PrimFloat.mul random (PrimFloat.of_uint63 10000000%uint63))
               + 1000)
         else None)
  | bucket =>
      match head_object S bucket s3Key with
      | inr ContentLength => mkAvailability true (Some s3Key) ContentLength
      | inl _ => mkAvailability false None None
      end
  end.

(** [checkS3Health] *)
Definition checkS3Health (E : Env) (S : Store) : bool :=
  match S3_BUCKET_NAME E with
  | EmptyString => true
  | bucket =>
      match head_object S bucket "__health_check_marker__" with
      | inr _ => true
      | inl (ErrorNamed name _) => bool_decide (name = "NotFound")
      | inl NotAnErrorValue => false
      end
  end.

(** The handler of [GET /health]: the HTTP status, [status] and
    [checks.storage]. *)
Definition healthRoute (E : Env) (S : Store) : Z * string * string :=
  let storageHealthy := checkS3Health E S in
  (if storageHealthy then 200 else 503,
   if storageHealthy then "healthy" else "unhealthy",
   if storageHealthy then "ok" else "error").

(** The answer of [GET /v1/download/file/:jobId]: a JSON error with its
    HTTP status, or the stream with its headers. *)
Inductive FileResponse :=
  | FileError (code : Z) (error message : string)
  | FileStream (body : Buffer) (headers : list (string * string)).

Definition dquote : string := String (Ascii.ascii_of_nat 34) "".

(** The handler of [GET /v1/download/file/:jobId]. *)
Definition downloadFile (E : Env) (S : Store) (jobId : string) (st : State)
    : FileResponse :=
  match jobs st !! jobId with
  | None => FileError 404 "Not Found" ("Job " +:+ jobId +:+ " not found")
  | Some job =>
      if decide (status job ≠ completed) then
        FileError 400 "Bad Request" ("Job " +:+ jobId +:+ " is not completed yet")
      else
        let finalKey := jobId +:+ ".zip" in
        match get_object S (downloads_bucket E) finalKey with
        | inl _ => FileError 500 "Internal Server Error" "Failed to download file"
        | inr (None, _) =>
            FileError 500 "Internal Server Error" "File not found in storage"
        | inr (Some stream, ContentLength) =>
            FileStream stream
              ([("Content-Type", "application/zip");
                ("Content-Disposition",
                 "attachment; filename=" +:+ dquote +:+ jobId +:+ ".zip" +:+ dquote);
                ("Cache-Control", "no-cache")]
               ++ match ContentLength with
                  | Some n => if n =? 0 then [] else [("Content-Length", pretty n)]
                  | None => []
                  end)
        end
  end.



(** [f.key.endsWith("/")] *)
Fixpoint endsWith_slash (s : string) : bool :=
  match s with
  | EmptyString => false
  | String c EmptyString => bool_decide (c = Ascii.ascii_of_nat 47)
  | String _ rest => endsWith_slash rest
  end.

Record SourceFile := mkSourceFile {
  f_key : string;
  f_size : Z;
  f_lastModified : Z;
}.

(** [response.Contents?.map(...)]: an object without [LastModified] gets
    the time of the moment. *)
Fixpoint to_files (E : Env) (contents : list S3Object) : M (list SourceFile) :=
  match contents with
  | [] => ret []
  | obj :: rest =>
      let* lastModified :=
        match o_LastModified obj with
        | Some t => ret t
        | None => new_Date E
        end in
      let* files := to_files E rest in
      ret (mkSourceFile (nullish (o_Key obj) "") (nullish (o_Size obj) 0) lastModified
             :: files)
  end.

(** [f.key && !f.key.endsWith("/")] *)
Definition listed (f : SourceFile) : bool :=
  negb (bool_decide (f_key f = "")) && negb (endsWith_slash (f_key f)).

(** The handler of [GET /v1/files]: the HTTP status and [files]. *)
Definition listSourceFiles (E : Env) (S : Store) : M (Z * list SourceFile) :=
  match list_objects S "source" with
  | inl _ => ret (500, [])
  | inr None => ret (200, [])
  | inr (Some contents) =>
      let* files := to_files E contents in
      ret (200, List.filter listed files)
  end.

(** A store that holds the archive of ["job-0"] and ["job-1"] and one
    source file beside a folder marker. *)
Definition demo_store : Store :=
  {| head_object := λ _ _, inr (Some 42);
     get_object := λ _ _, inr (Some [Byte.x50; Byte.x4b], Some 2);
     list_objects := λ _,
       inr (Some [mkS3Object (Some "docs/") (Some 0) None;
                  mkS3Object (Some "docs/a.txt") (Some 1) (Some 7)]) |}.

(** The job of [finished_state] while it was being processed, and a process
    whose cache and table both hold it. *)
Definition running_job : JobStatus :=
  mkJobStatus "job-0" processing ["a.txt"] 50 1 1 None None 0 5.

Definition running_state : State :=
  mkState {[ "job-0" := running_job ]}
    {[ "job-0" :=
         database.mkJobRecord "job-0" processing ["a.txt"] 50 1 1 None None 0 5 ]}
    0 0 [].

(** The world of [demo_env], except that the presigner throws. *)
Definition unsigned_env : Env :=
  {| S3_BUCKET_NAME := S3_BUCKET_NAME demo_env;
     sha256_hex := sha256_hex demo_env;
     s3_head := s3_head demo_env;
     s3_get := s3_get demo_env;
     archiver_zip := archiver_zip demo_env;
     s3_put := s3_put demo_env;
     getSignedUrl := λ _ _ _, inl (ErrorObj "Could not load credentials");
     db_fault := db_fault demo_env;
     clock := clock demo_env |}.

(** * Reasoning about runs *)

(** ** Traces and moves *)

Lemma assigns_app id tr1 tr2 :
  assigns id (tr1 ++ tr2) = assigns id tr1 ++ assigns id tr2.
Proof. apply omap_app. Qed.

Lemma uploads_app tr1 tr2 : uploads (tr1 ++ tr2) = uploads tr1 ++ uploads tr2.
Proof. apply omap_app. Qed.

Lemma assigns_same id u : assigns id [EvAssign id u] = [u].
Proof. unfold assigns. simpl. by rewrite decide_True. Qed.

Lemma Moves_refl id st : Moves id st st [] [].
Proof.
  split; [exists []|]; rewrite ?app_nil_r; repeat split; try done.
  simpl. by destruct (jobs st !! id).
Qed.

Lemma apply_all_app us vs job :
  apply_all (us ++ vs) job = apply_all vs (apply_all us job).
Proof. apply foldl_app. Qed.

Lemma Moves_trans id st1 st2 st3 cs1 cs2 ps1 ps2 :
  Moves id st1 st2 cs1 ps1 → Moves id st2 st3 cs2 ps2 →
  Moves id st1 st3 (cs1 ++ cs2) (ps1 ++ ps2).
Proof.
  intros [(us1 & Hs1 & Ha1 & Hj1) [Hu1 Hd1]] [(us2 & Hs2 & Ha2 & Hj2) [Hu2 Hd2]].
  split; [exists (us1 ++ us2)|]; repeat split.
  - by rewrite map_app, Hs1, Hs2.
  - by rewrite Ha2, Ha1, app_assoc.
  - rewrite Hj2, Hj1. destruct (jobs st1 !! id); simpl; [|done].
    by rewrite apply_all_app.
  - by rewrite Hu2, Hu1, app_assoc.
  - by rewrite Hd2.
Qed.

(** A change of the counters only. *)
Lemma Moves_same id st st' :
  jobs st' = jobs st → trace st' = trace st → dom (db st') = dom (db st) →
  Moves id st st' [] [].
Proof.
  intros Hj Ht Hd. split; [exists []|]; rewrite ?Hj, ?Ht, ?app_nil_r; repeat split; try done.
  simpl. by destruct (jobs st !! id).
Qed.

Lemma Moves_present id st st' cs ps :
  Moves id st st' cs ps → is_Some (jobs st !! id) → is_Some (jobs st' !! id).
Proof. intros [(us & _ & _ & ->) _] [j ->]. by eexists. Qed.

(** ** Rules for computations *)

Lemma wp_ret {A} (a : A) Q st : Q (inr a) st → wp (ret a) Q st.
Proof. done. Qed.

Lemma wp_throw {A} e (Q : Thrown + A → State → Prop) st :
  Q (inl e) st → wp (throw e) Q st.
Proof. done. Qed.

Lemma wp_bind {A B} (m : M A) (f : A → M B) Q st :
  wp m (λ r st', match r with
                 | inl e => Q (inl e) st'
                 | inr a => wp (f a) Q st'
                 end) st →
  wp (bind m f) Q st.
Proof. unfold wp, bind. by destruct (m st) as [[e|a] st']. Qed.

Lemma wp_try_catch {A} (m : M A) h Q st :
  wp m (λ r st', match r with
                 | inl e => wp (h e) Q st'
                 | inr a => Q (inr a) st'
                 end) st →
  wp (try_catch m h) Q st.
Proof. unfold wp, try_catch. by destruct (m st) as [[e|a] st']. Qed.

Lemma wp_eq {A} (m m' : M A) (Q : Thrown + A → State → Prop) st :
  m st = m' st → wp m' Q st → wp m Q st.
Proof. unfold wp. by intros ->. Qed.

Lemma wp_mono {A} (m : M A) (Q Q' : Thrown + A → State → Prop) st :
  wp m Q st → (∀ r st', Q r st' → Q' r st') → wp m Q' st.
Proof. unfold wp. auto. Qed.

Section Primitives.

Context (E : Env) (id : string).

Lemma wp_new_Date Q st :
  (∀ now st', Moves id st st' [] [] → Q (inr now) st') → wp (new_Date E) Q st.
Proof. intros H. apply H. by apply Moves_same. Qed.

Lemma wp_console line Q st :
  (∀ st', Moves id st st' [] [] → Q (inr tt) st') → wp (console line) Q st.
Proof.
  intros H. apply H. unfold console, emit, log_event.
  split; [exists []|]; cbn [trace jobs db fst snd];
    rewrite ?assigns_app, ?uploads_app, ?app_nil_r; repeat split.
  cbn. by destruct (jobs st !! id).
Qed.

Lemma wp_mutate u Q st :
  (∀ st', Moves id st st' [strip u] [] → Q (inr tt) st') → wp (mutate id u) Q st.
Proof.
  intros H. apply H. unfold mutate, log_event, set_jobs.
  split; [exists [u]|]; cbn [trace jobs db fst snd];
    rewrite ?assigns_app, ?uploads_app, ?assigns_same, ?app_nil_r; repeat split.
  by rewrite lookup_alter_eq.
Qed.

Lemma wp_updateJob u Q st :
  (∀ r st', Moves id st st' [] [] → Q r st') → wp (updateJob E id u) Q st.
Proof.
  intros H. unfold wp, updateJob, db_call.
  destruct (db_fault E (db_ops st)) as [e|]; simpl.
  - apply H. by apply Moves_same.
  - destruct (db st !! id) as [current|] eqn:Hrow; simpl; apply H.
    + apply Moves_same; simpl; try done.
      apply dom_insert_lookup_L. by rewrite Hrow.
    + by apply Moves_same.
Qed.

Lemma wp_try_updateJob u Q st :
  (∀ st', Moves id st st' [] [] → Q (inr tt) st') → wp (try_updateJob E id u) Q st.
Proof.
  intros H. apply wp_try_catch, wp_updateJob. intros [e|[]] st1 H1.
  - apply wp_console. intros st2 H2. apply H.
    by generalize (Moves_trans _ _ _ _ _ _ _ _ H1 H2).
  - by apply H.
Qed.

End Primitives.

(** Chain two moves and normalise the lists. *)
Ltac moved H H' :=
  generalize (Moves_trans _ _ _ _ _ _ _ _ H H'); clear H H'; intros H;
  cbn [app strip progress_only completed_with failed_with status_only
       u_status u_progress u_filesCompleted u_downloadUrl u_error] in H.

(** ** Phase 1 *)

Section Phases.

Context (E : Env) (id : string).

Lemma collect_file_spec n i key tempFiles st :
  wp (collect_file E id n i key tempFiles)
    (λ r st',
       match r with
       | inr tempFiles' =>
           fetch_ok (s3_get E i "source" key)
           ∧ (∃ fileData,
                tempFiles' = tempFiles
                  ++ [mkTempFile key fileData (calculateChecksum E fileData)])
           ∧ Moves id st st' [collected (S i) n 0] []
       | inl e =>
           ∃ inner,
             fetch_fails key (s3_get E i "source" key) inner
             ∧ e = ErrorObj ("Failed to collect file " +:+ key +:+ ": " +:+ inner)
             ∧ Moves id st st' [] []
       end) st.
Proof.
  unfold collect_file. apply wp_try_catch.
  destruct (s3_get E i "source" key) as [e| |fileData] eqn:Hget.
  - apply wp_throw, wp_bind, (wp_console id). intros st1 H1.
    apply wp_throw. by exists (error_message e).
  - apply wp_throw, wp_bind, (wp_console id). intros st1 H1.
    apply wp_throw. by eexists.
  - destruct (length fileData =? 0)%nat eqn:Hlen.
    + apply wp_throw, wp_bind, (wp_console id). intros st1 H1.
      apply wp_throw. exists ("File " +:+ key +:+ " is empty").
      apply Nat.eqb_eq in Hlen. by destruct fileData.
    + apply wp_bind, (wp_new_Date E id). intros now st1 H1.
      apply wp_bind, (wp_mutate id). intros st2 H2.
      apply wp_bind, (wp_try_updateJob E id). intros st3 H3.
      apply wp_ret. split; [|split].
      * exists fileData. split; [done|].
        intros ->. discriminate.
      * by eexists.
      * generalize (Moves_trans _ _ _ _ _ _ _ _ (Moves_trans _ _ _ _ _ _ _ _ H1 H2) H3).
        by rewrite app_nil_r.
Qed.

Lemma collects_snoc n from count :
  collects n from (S count) = collects n from count ++ [collected (S (from + count)) n 0].
Proof.
  unfold collects. by rewrite seq_S, map_app.
Qed.

Lemma collects_cons n from count :
  collects n from (S count) = collected (S from) n 0 :: collects n (S from) count.
Proof. done. Qed.

Lemma collect_spec n keys : ∀ i tempFiles st,
  Forall (consistent E) tempFiles →
  wp (collect E id n i keys tempFiles)
    (λ r st',
       match r with
       | inr tempFiles' =>
           (∀ j k, keys !! j = Some k → fetch_ok (s3_get E (i + j) "source" k))
           ∧ Forall (consistent E) tempFiles'
           ∧ Moves id st st' (collects n i (length keys)) []
       | inl e =>
           ∃ before key after inner,
             keys = before ++ key :: after
             ∧ (∀ j k, before !! j = Some k → fetch_ok (s3_get E (i + j) "source" k))
             ∧ fetch_fails key (s3_get E (i + length before) "source" key) inner
             ∧ e = ErrorObj ("Failed to collect file " +:+ key +:+ ": " +:+ inner)
             ∧ Moves id st st' (collects n i (length before)) []
       end) st.
Proof.
  induction keys as [|key rest IH]; intros i tempFiles st Hc.
  - apply wp_ret. split; [intros j k; by rewrite lookup_nil|split; [done|apply Moves_refl]].
  - cbn [collect]. apply wp_bind.
    eapply wp_mono; [apply collect_file_spec|].
    intros [e|tempFiles1] st1.
    + intros (inner & Hf & -> & H1).
      exists [], key, rest, inner. rewrite Nat.add_0_r.
      split; [done|]. split; [intros j k; by rewrite lookup_nil|done].
    + intros (Hok & (fileData & ->) & H1).
      eapply wp_mono; [apply IH|].
      { apply Forall_app. split; [done|]. by apply Forall_singleton. }
      intros [e|tempFiles2] st2.
      * intros (before & k & after & inner & -> & Hb & Hf & -> & H2).
        exists (key :: before), k, after, inner.
        split; [done|]. split; [|split; [|split; [done|]]].
        -- intros [|j] k'; simpl; intros Hk.
           ++ injection Hk as <-. by rewrite Nat.add_0_r.
           ++ rewrite <- Nat.add_succ_comm. by apply Hb.
        -- simpl. by rewrite <- Nat.add_succ_comm.
        -- simpl length. rewrite collects_cons.
           apply (Moves_trans _ _ _ _ _ _ _ _ H1 H2).
      * intros (Hb & Hc2 & H2). split; [|split; [done|]].
        -- intros [|j] k'; simpl; intros Hk.
           ++ injection Hk as <-. by rewrite Nat.add_0_r.
           ++ rewrite <- Nat.add_succ_comm. by apply Hb.
        -- simpl length. rewrite collects_cons.
           apply (Moves_trans _ _ _ _ _ _ _ _ H1 H2).
Qed.

(** ** Phases 2 to 4 *)

Lemma verify_ok tempFiles st :
  Forall (consistent E) tempFiles → verify E tempFiles st = (inr tt, st).
Proof.
  induction 1 as [|file rest Hfile _ IH]; [done|].
  cbn [verify]. by rewrite decide_True.
Qed.

Lemma verify_mismatch good bad rest st :
  Forall (consistent E) good → ¬ consistent E bad →
  verify E (good ++ bad :: rest) st
  = (inl (ErrorObj ("Integrity check failed for file " +:+ key bad)), st).
Proof.
  intros Hgood Hbad. induction Hgood as [|file good Hfile _ IH]; cbn [verify app].
  - by rewrite decide_False.
  - by rewrite decide_True.
Qed.

Lemma wp_put bucket k body metadata Q st :
  (∀ st', Moves id st st' [] [(bucket, k)] → Q (inr tt) st') →
  wp (emit (EvPut bucket k body metadata)) Q st.
Proof.
  intros H. apply H. unfold emit, log_event.
  split; [exists []|]; cbn [trace jobs db fst snd];
    rewrite ?assigns_app, ?uploads_app, ?app_nil_r; repeat split.
  cbn. by destruct (jobs st !! id).
Qed.

Lemma process_collected_spec fileKeys tempFiles st :
  Forall (consistent E) tempFiles →
  wp (process_collected E id fileKeys tempFiles)
    (λ r st',
       match r with
       | inr _ =>
           ∃ url,
             Moves id st st'
               [progress_only 30 0; progress_only 50 0; progress_only 75 0;
                completed_with url 0]
               [(downloads_bucket E, id +:+ ".zip")]
       | inl e =>
           (∃ checkpoints,
              (checkpoints = [30] ∨ checkpoints = [30; 50])
              ∧ Moves id st st' (map (λ p, progress_only p 0) checkpoints) [])
           ∨ Moves id st st' (map (λ p, progress_only p 0) [30; 50; 75])
               [(downloads_bucket E, id +:+ ".zip")]
       end) st.
Proof.
  intros Hc. unfold process_collected. apply wp_bind.
  unfold wp at 1. rewrite (verify_ok _ _ Hc). cbn [fst snd].
  apply wp_bind, (wp_new_Date E id). intros now1 st1 H.
  apply wp_bind, (wp_mutate id). intros st2 H2. moved H H2.
  apply wp_bind, (wp_updateJob E id). intros [e|[]] st3 H3; moved H H3.
  { left. exists [30]. by split; [left|]. }
  apply wp_bind.
  destruct (archiver_zip E _) as [err|archiveBuffer].
  { apply wp_throw. left. exists [30]. by split; [left|]. }
  apply wp_ret, wp_bind, (wp_new_Date E id). intros now2 st4 H4. moved H H4.
  apply wp_bind, (wp_mutate id). intros st5 H5. moved H H5.
  apply wp_bind, (wp_updateJob E id). intros [e|[]] st6 H6; moved H H6.
  { left. exists [30; 50]. by split; [right|]. }
  apply wp_bind, (wp_new_Date E id). intros uploaded st7 H7. moved H H7.
  apply wp_bind.
  destruct (s3_put E _ _ _ _) as [err|].
  { apply wp_throw. left. exists [30; 50]. by split; [right|]. }
  apply wp_put. intros st8 H8. moved H H8.
  apply wp_bind, (wp_new_Date E id). intros now3 st9 H9. moved H H9.
  apply wp_bind, (wp_mutate id). intros st10 H10. moved H H10.
  apply wp_bind, (wp_try_updateJob E id). intros st11 H11. moved H H11.
  apply wp_bind.
  destruct (getSignedUrl E _ _ _) as [err|url].
  { apply wp_throw. by right. }
  apply wp_ret, wp_bind, (wp_new_Date E id). intros now4 st12 H12. moved H H12.
  apply wp_bind, (wp_mutate id). intros st13 H13. moved H H13.
  apply (wp_try_updateJob E id). intros st14 H14. moved H H14.
  by exists url.
Qed.

(** ** The task and its launch *)

Lemma processDownloadJob_spec fileKeys st :
  is_Some (jobs st !! id) →
  wp (processDownloadJob E id fileKeys)
    (λ r st',
       match r with
       | inr _ =>
           ∃ url,
             (∀ i k, fileKeys !! i = Some k → fetch_ok (s3_get E i "source" k))
             ∧ Moves id st st' (success_blocks (length fileKeys) url)
                 [(downloads_bucket E, id +:+ ".zip")]
       | inl e =>
           ∃ cs ps,
             Interrupted E id fileKeys e cs ps
             ∧ Moves id st st'
                 (status_only processing 0 :: cs ++ [failed_with (error_message e) 0]) ps
       end) st.
Proof.
  intros [job Hjob].
  eapply wp_eq; [unfold processDownloadJob; by rewrite Hjob|].
  match goal with |- wp _ ?Q0 _ => set (Q := Q0) end.
  apply wp_bind, (wp_new_Date E id). intros now st1 H.
  apply wp_bind, (wp_mutate id). intros st2 H2. moved H H2.
  apply wp_bind, (wp_try_updateJob E id). intros st3 H3. moved H H3.
  assert (Hfail : ∀ e cs ps st4,
    Interrupted E id fileKeys e cs ps → Moves id st3 st4 cs ps →
    wp (on_error E id e) Q st4).
  { intros e cs ps st4 Hi H4. unfold on_error.
    apply wp_bind, (wp_new_Date E id). intros now' st5 H5. moved H4 H5.
    apply wp_bind, (wp_mutate id). intros st6 H6. moved H4 H6.
    apply wp_bind, (wp_try_updateJob E id). intros st7 H7. moved H4 H7.
    apply wp_bind, (wp_console id). intros st8 H8. moved H4 H8.
    apply wp_throw. exists cs, ps. split; [done|].
    generalize (Moves_trans _ _ _ _ _ _ _ _ H H4).
    by rewrite ?app_nil_r, <- ?app_assoc. }
  apply wp_try_catch. unfold pipeline. apply wp_bind.
  eapply wp_mono; [apply collect_spec; constructor|].
  intros [e|tempFiles] st4; cbn [Nat.add].
  - intros (before & key & after & inner & Hk & Hb & Hf & -> & H4).
    eapply Hfail; [|done]. by eapply in_collect.
  - intros (Hok & Hc & H4).
    eapply wp_mono; [by apply process_collected_spec|].
    intros [e|[]] st5.
    + intros [(cps & Hcps & H5)|H5]; moved H4 H5.
      * eapply Hfail; [|done]. by apply before_upload.
      * eapply Hfail; [|done]. by apply after_upload.
    + intros (url & H5). exists url. split; [done|].
      generalize (Moves_trans _ _ _ _ _ _ _ _ H (Moves_trans _ _ _ _ _ _ _ _ H4 H5)).
      by rewrite ?app_nil_r, <- ?app_assoc.
Qed.

Lemma background_spec validKeys st :
  is_Some (jobs st !! id) →
  wp (background E id validKeys)
    (λ r st',
       r = inr tt
       ∧ ∃ cs ps, Moves id st st' cs ps ∧ Outcome E id validKeys cs ps) st.
Proof.
  intros Hjob. unfold background. apply wp_try_catch.
  eapply wp_mono; [by apply processDownloadJob_spec|].
  intros [e|[]] st1.
  - intros (cs & ps & Hi & H). unfold on_rejected.
    apply wp_bind, (wp_console id). intros st2 H2. moved H H2.
    destruct (Moves_present _ _ _ _ _ H Hjob) as [job Hjob2].
    eapply wp_eq; [by rewrite Hjob2|].
    apply wp_bind, (wp_new_Date E id). intros now st3 H3. moved H H3.
    apply wp_bind, (wp_mutate id). intros st4 H4. moved H H4.
    apply (wp_try_updateJob E id). intros st5 H5. moved H H5.
    split; [done|]. eexists _, ps. split; [|by apply gave_up].
    revert H. by rewrite ?app_nil_r, <- ?app_assoc.
  - intros (url & Hok & H). split; [done|]. eexists _, _. split; [done|].
    by apply succeeded.
Qed.

(** ** The initiate handler *)

Lemma head_check_spec file_keys : ∀ validKeys st,
  wp (head_check E file_keys validKeys)
    (λ r st', r = inr (validKeys ++ surviving E file_keys) ∧ Moves id st st' [] []) st.
Proof.
  induction file_keys as [|k rest IH]; intros validKeys st.
  - apply wp_ret. rewrite app_nil_r. split; [done|apply Moves_refl].
  - cbn [head_check]. unfold surviving. rewrite filter_cons.
    destruct (s3_head E "source" k) as [e|] eqn:Hhead.
    + rewrite decide_False by done.
      apply wp_bind, (wp_console id). intros st1 H1.
      eapply wp_mono; [apply IH|]. intros r st2 [-> H2]. split; [done|].
      apply (Moves_trans _ _ _ _ _ _ _ _ H1 H2).
    + rewrite decide_True by done.
      eapply wp_mono; [apply IH|]. intros r st2 [-> H2].
      by rewrite <- app_assoc.
Qed.

End Phases.

Lemma initiate_spec E uuid file_keys st :
  valid_request file_keys = true →
  surviving E file_keys ≠ [] →
  (initiate E uuid file_keys st).1
  = inr (Initiated uuid queued (Z.of_nat (length (surviving E file_keys)))
           ("/v1/download/subscribe/" +:+ uuid) ("/v1/download/status/" +:+ uuid))
  ∧ Ran E uuid (surviving E file_keys) st (initiate E uuid file_keys st).2.
Proof.
  intros Hvalid Hsome. change (wp (initiate E uuid file_keys) (λ r st',
    r = inr (Initiated uuid queued (Z.of_nat (length (surviving E file_keys)))
               ("/v1/download/subscribe/" +:+ uuid) ("/v1/download/status/" +:+ uuid))
    ∧ Ran E uuid (surviving E file_keys) st st') st).
  unfold initiate. rewrite Hvalid. apply wp_bind.
  eapply wp_mono; [apply (head_check_spec E uuid)|].
  intros r st1 [-> H1]. cbn [app].
  destruct (surviving E file_keys) as [|k validKeys] eqn:Hkeys; [done|].
  rewrite <- Hkeys. replace (length (surviving E file_keys) =? 0)%nat with false
    by (by rewrite Hkeys).
  apply wp_bind. unfold create at 1.
  apply wp_bind, (wp_new_Date E uuid). intros created st2 H2. moved H1 H2.
  apply wp_bind, (wp_new_Date E uuid). intros updated st3 H3. moved H1 H3.
  unfold wp at 1. cbn [fst snd].
  set (job := mkJobStatus _ _ _ _ _ _ _ _ _ _).
  apply wp_bind. eapply wp_mono; [apply background_spec|].
  { cbn. rewrite lookup_insert_eq. by eexists. }
  intros r st4 (-> & cs & ps & H4 & Hout). apply wp_ret. split; [done|].
  destruct H1 as [(us1 & Hs1 & Ha1 & _) [Hu1 Hd1]].
  destruct H4 as [(us & Hs & Ha & Hj) [Hu Hd]].
  destruct us1; [|done]. rewrite app_nil_r in Ha1, Hu1.
  exists job, us, ps. cbn [set_jobs jobs db trace] in *.
  rewrite lookup_insert_eq in Hj. subst cs.
  split; [done|]. by rewrite Ha, Hj, Hu, Hd, Ha1, Hu1, Hd1.
Qed.

(** ** The progress table *)

Lemma progress_table_checked : progress_table_ok = true.
Proof. vm_compute. reflexivity. Qed.

Lemma collect_progress_zero n :
  (1 ≤ n ≤ 100)%nat → collect_progress 0 n = 0.
Proof.
  intros Hn. pose proof progress_table_checked as H.
  unfold progress_table_ok in H. rewrite forallb_forall in H.
  specialize (H n). rewrite in_seq in H.
  apply andb_prop in H as [H _]; [|lia]. by apply Z.eqb_eq.
Qed.

Lemma collect_progress_step n i :
  (i < n ≤ 100)%nat →
  collect_progress i n ≤ collect_progress (S i) n ∧ collect_progress (S i) n ≤ 25.
Proof.
  intros Hn. pose proof progress_table_checked as H.
  unfold progress_table_ok in H. rewrite forallb_forall in H.
  specialize (H n). rewrite in_seq in H.
  apply andb_prop in H as [_ H]; [|lia].
  rewrite forallb_forall in H. specialize (H i). rewrite in_seq in H.
  apply andb_prop in H as [H1 H2]; [|lia].
  split; by apply Z.leb_le.
Qed.

Lemma collect_progress_bound n i :
  (i ≤ n)%nat → (1 ≤ n ≤ 100)%nat → 0 ≤ collect_progress i n ≤ 25.
Proof.
  intros Hi Hn. induction i as [|i IH].
  - rewrite collect_progress_zero by done. lia.
  - destruct (collect_progress_step n i); lia.
Qed.

(** The values are those of the doubles: a tie goes up, and [29 / 50 * 25]
    is a double just below 14.5, so it rounds to 14. *)
Example collect_progress_tie : collect_progress 1 2 = 13.
Proof. by vm_compute. Qed.

Example collect_progress_29_of_50 : collect_progress 29 50 = 14.
Proof. by vm_compute. Qed.

Example collect_progress_of_3 :
  map (λ i, collect_progress i 3) [1; 2; 3]%nat = [8; 17; 25].
Proof. by vm_compute. Qed.

Lemma untimed_assign u a : untimed (assign u a) = assign (strip u) (untimed a).
Proof. done. Qed.

Lemma snapshots_untimed us : ∀ a,
  map untimed (snapshots a us) = snapshots (untimed a) (map strip us).
Proof.
  induction us as [|u us IH]; intros a; [done|].
  cbn [snapshots map]. by rewrite IH, untimed_assign.
Qed.

Lemma apply_all_untimed us : ∀ a,
  untimed (apply_all us a) = apply_all (map strip us) (untimed a).
Proof.
  induction us as [|u us IH]; intros a; [done|].
  change (apply_all (u :: us) a) with (apply_all us (assign u a)).
  change (apply_all (map strip (u :: us)) (untimed a))
    with (apply_all (map strip us) (assign (strip u) (untimed a))).
  by rewrite IH, untimed_assign.
Qed.

Lemma path_ok_untimed l : ∀ a, path_ok (untimed a) (map untimed l) ↔ path_ok a l.
Proof.
  induction l as [|b l IH]; intros a; [done|].
  cbn [path_ok map]. by rewrite IH.
Qed.

Lemma good_untimed a us : good (untimed a) (map strip us) ↔ good a us.
Proof. unfold good. by rewrite <- snapshots_untimed, path_ok_untimed. Qed.

Lemma good_app us : ∀ a vs,
  good a (us ++ vs) ↔ good a us ∧ good (apply_all us a) vs.
Proof.
  unfold good. induction us as [|u us IH]; intros a vs.
  - cbn. tauto.
  - cbn [app snapshots path_ok]. rewrite IH. cbn [apply_all foldl]. tauto.
Qed.

Lemma good_cons u us a :
  good a (u :: us) ↔ step_ok a (assign u a) ∧ state_ok (assign u a) ∧ good (assign u a) us.
Proof. done. Qed.

Lemma good_nil a : good a [].
Proof. done. Qed.

(** Successive states of a good path are good steps; its states are good;
    a terminal status stays. *)
Lemma path_ok_successive l : ∀ a i x y,
  path_ok a l → (a :: l) !! i = Some x → (a :: l) !! S i = Some y → step_ok x y.
Proof.
  induction l as [|b l IH]; intros a i x y Hp Hx Hy.
  - by destruct i.
  - destruct Hp as (Hs & _ & Hp). destruct i as [|i].
    + cbn in Hx, Hy. by simplify_eq.
    + by apply (IH b i).
Qed.

Lemma path_ok_states l : ∀ a x, path_ok a l → x ∈ l → state_ok x.
Proof.
  induction l as [|b l IH]; intros a x Hp Hx.
  - by apply elem_of_nil in Hx.
  - destruct Hp as (_ & Hb & Hp). apply elem_of_cons in Hx as [->|Hx]; [done|].
    by apply (IH b).
Qed.

Lemma path_ok_total l : ∀ a x, path_ok a l → x ∈ l → totalFiles x = totalFiles a.
Proof.
  induction l as [|b l IH]; intros a x Hp Hx.
  - by apply elem_of_nil in Hx.
  - destruct Hp as ((_ & _ & Ht & _) & _ & Hp).
    apply elem_of_cons in Hx as [->|Hx]; [done|].
    rewrite <- Ht. by apply (IH b).
Qed.

Lemma path_ok_terminal l : ∀ a x,
  path_ok a l → terminal (status a) → x ∈ l → status x = status a.
Proof.
  induction l as [|b l IH]; intros a x Hp Ha Hx.
  - by apply elem_of_nil in Hx.
  - destruct Hp as ((_ & _ & _ & Hs) & _ & Hp). specialize (Hs Ha).
    apply elem_of_cons in Hx as [->|Hx]; [done|].
    rewrite <- Hs. apply (IH b); [done| |done]. by rewrite Hs.
Qed.

Lemma path_ok_later l : ∀ a i k x y,
  path_ok a l → (i ≤ k)%nat →
  (a :: l) !! i = Some x → (a :: l) !! k = Some y →
  terminal (status x) → status y = status x.
Proof.
  induction l as [|b l IH]; intros a i k x y Hp Hik Hx Hy Hterm.
  - destruct i, k; cbn in Hx, Hy; by simplify_eq.
  - destruct i as [|i].
    + cbn in Hx. simplify_eq. destruct k as [|k]; cbn in Hy; [by simplify_eq|].
      apply (path_ok_terminal (b :: l) x); [done..|].
      by apply list_elem_of_lookup_2 in Hy.
    + destruct k as [|k]; [lia|]. destruct Hp as (_ & _ & Hp).
      apply (IH b i k); [done|lia|done..].
Qed.

(** ** The blocks of a run, one kind at a time *)

Ltac crush_job :=
  unfold working, step_ok, state_ok, terminal, created_as in *; cbn in *;
  repeat match goal with
         | H : _ ∧ _ |- _ => destruct H
         | H : ?f _ = _ |- _ => rewrite H in *
         end;
  repeat split; try done; try lia; try (intros [?|?]; congruence).

Lemma start_good id keys a :
  created_as id keys a →
  good a [status_only processing 0]
  ∧ working (length keys) (assign (status_only processing 0) a)
  ∧ progress (assign (status_only processing 0) a) = 0
  ∧ filesCompleted (assign (status_only processing 0) a) = 0.
Proof. intros Ha. rewrite good_cons. crush_job. Qed.

Lemma failure_good n a message :
  working n a → good a (failure_blocks message).
Proof.
  intros Ha. unfold failure_blocks. rewrite !good_cons. crush_job.
Qed.

Lemma failure_final a message :
  let b := apply_all (failure_blocks message) a in
  status b = failed ∧ error b = Some message
  ∧ downloadUrl b = downloadUrl a ∧ progress b = progress a.
Proof. done. Qed.

Lemma checkpoint_good n a p :
  working n a → progress a ≤ p →
  good a [progress_only p 0]
  ∧ working n (assign (progress_only p 0) a)
  ∧ progress (assign (progress_only p 0) a) = p.
Proof. intros Ha Hp. rewrite good_cons. crush_job. Qed.

Lemma completed_good n a url :
  working n a → progress a ≤ 100 → good a [completed_with url 0].
Proof. intros Ha Hp. rewrite good_cons. crush_job. Qed.

Lemma collects_good n count : ∀ from a,
  working n a → progress a = collect_progress from n →
  filesCompleted a = Z.of_nat from → (from + count ≤ n ≤ 100)%nat →
  let b := apply_all (collects n from count) a in
  good a (collects n from count)
  ∧ working n b
  ∧ progress b = collect_progress (from + count) n
  ∧ filesCompleted b = Z.of_nat (from + count).
Proof.
  induction count as [|count IH]; intros from a Ha Hp Hf Hn.
  - rewrite Nat.add_0_r. by split; [|split; [|split]].
  - rewrite collects_cons.
    destruct (collect_progress_step n from) as [Hle _]; [lia|].
    destruct (IH (S from) (assign (collected (S from) n 0) a)) as (Hg & Hw & Hp' & Hf');
      [crush_job|done|done|lia|].
    rewrite <- Nat.add_succ_comm. cbv zeta. rewrite good_cons.
    change (apply_all (collected (S from) n 0 :: collects n (S from) count) a)
      with (apply_all (collects n (S from) count) (assign (collected (S from) n 0) a)).
    split; [split; [|split; [|done]]|by split; [|split]]; crush_job.
Qed.

(** ** The history of a run *)

Lemma apply_all_cons u us a : apply_all (u :: us) a = apply_all us (assign u a).
Proof. done. Qed.

Lemma checkpoints_good n a :
  working n a → progress a ≤ 25 →
  ∀ checkpoints,
    checkpoints = [30] ∨ checkpoints = [30; 50] ∨ checkpoints = [30; 50; 75] →
    good a (map (λ p, progress_only p 0) checkpoints)
    ∧ working n (apply_all (map (λ p, progress_only p 0) checkpoints) a)
    ∧ progress (apply_all (map (λ p, progress_only p 0) checkpoints) a) ≤ 75.
Proof.
  intros Ha Hp checkpoints Hcps.
  destruct (checkpoint_good n a 30) as (G1 & W1 & P1); [done|lia|].
  destruct (checkpoint_good n _ 50 W1) as (G2 & W2 & P2); [lia|].
  destruct (checkpoint_good n _ 75 W2) as (G3 & W3 & P3); [lia|].
  destruct Hcps as [->|[->| ->]]; cbn [map]; rewrite ?apply_all_cons.
  - split; [done|]. split; [done|]. cbn [apply_all foldl]. lia.
  - split; [|split; [done|cbn [apply_all foldl]; lia]].
    apply (good_app [_] _ [_]). by split.
  - split; [|split; [done|cbn [apply_all foldl]; lia]].
    apply (good_app [_] _ [_; _]). split; [done|].
    apply (good_app [_] _ [_]). by split.
Qed.

Lemma interrupted_good E id keys e cs ps a :
  Interrupted E id keys e cs ps →
  working (length keys) a → progress a = 0 → filesCompleted a = 0 →
  (1 ≤ length keys ≤ 100)%nat →
  good a cs ∧ working (length keys) (apply_all cs a).
Proof.
  intros Hi Ha Hp Hf Hn.
  assert (Hp0 : progress a = collect_progress 0 (length keys))
    by (by rewrite collect_progress_zero).
  destruct Hi as [before key after inner Hkeys _ _|e cps _ Hcps|e _].
  - destruct (collects_good (length keys) (length before) 0 a) as (G & W & _);
      [done..| |done].
    rewrite Hkeys, length_app. cbn [length]. rewrite Hkeys, length_app in Hn.
    cbn [length] in Hn. lia.
  - destruct (collects_good (length keys) (length keys) 0 a) as (G & W & P & _);
      [done..|lia|].
    destruct (checkpoints_good _ _ W) with (checkpoints := cps) as (G' & W' & _).
    { rewrite P. apply collect_progress_bound; lia. }
    { tauto. }
    rewrite apply_all_app. split; [|done]. apply good_app. by split.
  - destruct (collects_good (length keys) (length keys) 0 a) as (G & W & P & _);
      [done..|lia|].
    destruct (checkpoints_good _ _ W) with (checkpoints := [30; 50; 75])
      as (G' & W' & _).
    { rewrite P. apply collect_progress_bound; lia. }
    { tauto. }
    rewrite apply_all_app. split; [|done]. apply good_app. by split.
Qed.

Lemma outcome_good E id keys cs ps a :
  Outcome E id keys cs ps → created_as id keys a →
  (1 ≤ length keys ≤ 100)%nat → good a cs.
Proof.
  intros Ho Ha Hn.
  destruct (start_good id keys a Ha) as (G0 & W0 & P0 & F0).
  destruct Ho as [e cs ps Hi|url _].
  - apply (good_app [_]). split; [done|]. cbn [apply_all foldl].
    destruct (interrupted_good _ _ _ _ _ _ _ Hi W0 P0 F0 Hn) as [G W].
    apply good_app. split; [done|]. by apply (failure_good (length keys)).
  - unfold success_blocks. apply (good_app [_]). split; [done|]. cbn [apply_all foldl].
    destruct (collects_good (length keys) (length keys) 0 _ W0) as (G & W & P & _);
      [by rewrite collect_progress_zero|done|lia|].
    apply good_app. split; [done|].
    destruct (checkpoints_good _ _ W) with (checkpoints := [30; 50; 75])
      as (G' & W' & P').
    { rewrite P. apply collect_progress_bound; lia. }
    { tauto. }
    apply (good_app [_; _; _] _ [_]). split; [done|].
    apply (completed_good (length keys)); [done|].
    etrans; [exact P'|lia].
Qed.

(** How a run leaves the job: failed with the message of the error thrown
    and no result, or completed with the result at 100. *)
Lemma interrupted_final E id keys e cs ps a :
  Interrupted E id keys e cs ps → created_as id keys a →
  (1 ≤ length keys ≤ 100)%nat →
  let b := apply_all (status_only processing 0 :: cs
                        ++ failure_blocks (error_message e)) a in
  status b = failed ∧ error b = Some (error_message e) ∧ downloadUrl b = None.
Proof.
  intros Hi Ha Hn.
  destruct (start_good id keys a Ha) as (G0 & W0 & P0 & F0).
  destruct (interrupted_good _ _ _ _ _ _ _ Hi W0 P0 F0 Hn) as [_ W].
  cbv zeta. rewrite apply_all_cons, apply_all_app.
  destruct (failure_final (apply_all cs (assign (status_only processing 0) a))
              (error_message e)) as (-> & -> & -> & _).
  split; [done|]. split; [done|]. apply W.
Qed.

Lemma succeeded_final n url a :
  let b := apply_all (success_blocks n url) a in
  status b = completed ∧ downloadUrl b = Some url ∧ progress b = 100.
Proof.
  cbv zeta. unfold success_blocks. rewrite apply_all_cons, apply_all_app. by cbn.
Qed.

(** ** Accepted requests *)

Lemma valid_request_bound E file_keys :
  valid_request file_keys = true → surviving E file_keys ≠ [] →
  (1 ≤ length (surviving E file_keys) ≤ 100)%nat.
Proof.
  intros Hv Hs. unfold valid_request in Hv.
  apply andb_prop in Hv as [_ Hv]. apply Nat.leb_le in Hv.
  pose proof (length_filter (λ key, s3_head E "source" key = None) file_keys) as Hl.
  fold (surviving E file_keys) in Hl.
  destruct (surviving E file_keys); [done|]. cbn [length] in *. lia.
Qed.

Lemma created_untimed id keys a : created_as id keys a → created_as id keys (untimed a).
Proof. done. Qed.

Lemma created_state_ok id keys a : created_as id keys a → state_ok a.
Proof. intros Ha. crush_job. Qed.

Lemma run_history E uuid file_keys st :
  valid_request file_keys = true → surviving E file_keys ≠ [] →
  ∃ job us ps,
    created_as uuid (surviving E file_keys) job
    ∧ assigns uuid (trace (initiate E uuid file_keys st).2)
      = assigns uuid (trace st) ++ us
    ∧ jobs (initiate E uuid file_keys st).2 !! uuid = Some (apply_all us job)
    ∧ uploads (trace (initiate E uuid file_keys st).2) = uploads (trace st) ++ ps
    ∧ Outcome E uuid (surviving E file_keys) (map strip us) ps
    ∧ good job us.
Proof.
  intros Hv Hs.
  destruct (initiate_spec E uuid file_keys st Hv Hs)
    as [_ (job & us & ps & Hc & Ha & Hj & Hu & _ & Ho)].
  exists job, us, ps. repeat (split; [done|]).
  apply good_untimed. eapply outcome_good; [done|done|].
  by apply valid_request_bound.
Qed.

Lemma fields_untimed us a :
  status (apply_all us a) = status (apply_all (map strip us) (untimed a))
  ∧ progress (apply_all us a) = progress (apply_all (map strip us) (untimed a))
  ∧ downloadUrl (apply_all us a) = downloadUrl (apply_all (map strip us) (untimed a))
  ∧ error (apply_all us a) = error (apply_all (map strip us) (untimed a)).
Proof. by rewrite <- apply_all_untimed. Qed.

Lemma apply_all_keeps us : ∀ a,
  jobId (apply_all us a) = jobId a
  ∧ fileKeys (apply_all us a) = fileKeys a
  ∧ totalFiles (apply_all us a) = totalFiles a.
Proof.
  induction us as [|u us IH]; intros a; [done|].
  rewrite apply_all_cons. by destruct (IH (assign u a)) as (-> & -> & ->).
Qed.

Lemma progress_written_strip us : progress_written (map strip us) = progress_written us.
Proof.
  unfold progress_written in *. induction us as [|u us IH]; [done|].
  change (u :: us) with ([u] ++ us). by rewrite map_app, !omap_app, IH.
Qed.

Lemma progress_written_collects n count : ∀ from,
  progress_written (collects n from count)
  = map (λ k, collect_progress k n) (seq (S from) count).
Proof.
  induction count as [|count IH]; intros from; [done|].
  rewrite collects_cons. cbn [seq map]. rewrite <- IH. done.
Qed.

Lemma progress_written_success n url :
  progress_written (success_blocks n url)
  = map (λ k, collect_progress k n) (seq 1 n) ++ [30; 50; 75; 100].
Proof.
  unfold success_blocks.
  change (progress_written (status_only processing 0 :: ?l))
    with (progress_written l).
  unfold progress_written. rewrite omap_app.
  fold (progress_written (collects n 0 n)).
  by rewrite progress_written_collects.
Qed.

(** ** The first fetch that fails *)

Lemma fetch_fails_not_ok key r inner : fetch_fails key r inner → ¬ fetch_ok r.
Proof.
  intros Hf (fileData & -> & Hne). by destruct Hf.
Qed.

Lemma not_ok_fetch_fails key r : ¬ fetch_ok r → ∃ inner, fetch_fails key r inner.
Proof.
  intros Hr. destruct r as [e| |fileData]; cbn; eauto.
  destruct fileData; [eauto|]. destruct Hr. by eexists.
Qed.

Lemma interrupted_at E id keys e cs ps before key after :
  Interrupted E id keys e cs ps →
  keys = before ++ key :: after →
  (∀ i k, before !! i = Some k → fetch_ok (s3_get E i "source" k)) →
  ¬ fetch_ok (s3_get E (length before) "source" key) →
  ps = [] ∧ ∃ inner, e = ErrorObj ("Failed to collect file " +:+ key +:+ ": " +:+ inner).
Proof.
  intros Hi Hkeys Hbefore Hkey.
  assert (Hat : keys !! length before = Some key).
  { rewrite Hkeys. by rewrite list_lookup_middle. }
  destruct Hi as [before' key' after' inner Hkeys' Hbefore' Hfail|e cps Hall _|e Hall];
    [|destruct Hkey; by apply Hall..].
  split; [done|]. exists inner.
  destruct (Nat.lt_trichotomy (length before') (length before)) as [Hlt|[Heq|Hgt]].
  - destruct (fetch_fails_not_ok _ _ _ Hfail). apply Hbefore.
    assert (keys !! length before' = Some key') as Hk'
      by (rewrite Hkeys'; by rewrite list_lookup_middle).
    rewrite Hkeys, lookup_app_l in Hk' by done. done.
  - rewrite Hkeys in Hkeys'. apply app_inj_1 in Hkeys' as [_ Hcons]; [|done].
    by injection Hcons as ->.
  - destruct Hkey. apply Hbefore'.
    rewrite Hkeys', lookup_app_l in Hat by done. done.
Qed.

(** * The properties of the specification *)

(** C5: when the fetch of a key of the job fails, or returns no bytes,
    during Phase 1 (the keys before it having been collected), the job ends
    Failed with an error message that names that key, its [downloadUrl]
    stays unset, and the run writes no object to a bucket, so none under
    ["{id}.zip"]. *)
Theorem failed_fetch_fails_job E uuid file_keys st before key after :
  valid_request file_keys = true →
  surviving E file_keys = before ++ key :: after →
  (∀ i k, before !! i = Some k → fetch_ok (s3_get E i "source" k)) →
  ¬ fetch_ok (s3_get E (length before) "source" key) →
  ∃ job message,
    jobs (initiate E uuid file_keys st).2 !! uuid = Some job
    ∧ status job = failed
    ∧ error job = Some message
    ∧ names message key
    ∧ downloadUrl job = None
    ∧ uploads (trace (initiate E uuid file_keys st).2) = uploads (trace st).
Proof.
  intros Hv Hkeys Hbefore Hkey.
  assert (Hs : surviving E file_keys ≠ []) by (rewrite Hkeys; by destruct before).
  destruct (run_history E uuid file_keys st Hv Hs)
    as (job & us & ps & Hc & _ & Hj & Hu & Ho & _).
  pose proof (valid_request_bound E file_keys Hv Hs) as Hn.
  destruct (fields_untimed us job) as (Hst & _ & Hurl & Herr).
  remember (map strip us) as blocks eqn:Hcs.
  destruct Ho as [e cs ps Hi|url Hall].
  - destruct (interrupted_at _ _ _ _ _ _ _ _ _ Hi Hkeys Hbefore Hkey)
      as [-> [inner ->]].
    destruct (interrupted_final _ _ _ _ _ _ (untimed job) Hi
                (created_untimed _ _ _ Hc) Hn) as (F1 & F2 & F3).
    exists (apply_all us job), ("Failed to collect file " +:+ key +:+ ": " +:+ inner).
    rewrite Hst, Herr, Hurl, Hu, app_nil_r. repeat (split; [done|]).
    split; [|done]. by exists "Failed to collect file ", (": " +:+ inner).
  - destruct Hkey. apply Hall. rewrite Hkeys. by rewrite list_lookup_middle.
Qed.

(** C6: in a run that ends Completed over [n] keys, the progress values
    written are [Math.round(i / n * 25)] for [i = 1 .. n], then 30, 50, 75
    and 100; the job then stands at 100 with its [downloadUrl] set; for
    [n = 3] the values are 8, 17, 25, 30, 50, 75, 100. *)
Theorem progress_of_successful_run E uuid file_keys st job :
  valid_request file_keys = true →
  surviving E file_keys ≠ [] →
  jobs (initiate E uuid file_keys st).2 !! uuid = Some job →
  status job = completed →
  ∃ us,
    assigns uuid (trace (initiate E uuid file_keys st).2)
    = assigns uuid (trace st) ++ us
    ∧ progress_written us
      = map (λ i, collect_progress i (length (surviving E file_keys)))
          (seq 1 (length (surviving E file_keys)))
        ++ [30; 50; 75; 100]
    ∧ (length (surviving E file_keys) = 3%nat →
       progress_written us = [8; 17; 25; 30; 50; 75; 100])
    ∧ progress job = 100
    ∧ is_Some (downloadUrl job).
Proof.
  intros Hv Hs Hjob Hdone.
  destruct (run_history E uuid file_keys st Hv Hs)
    as (job0 & us & ps & Hc & Ha & Hj & _ & Ho & _).
  pose proof (valid_request_bound E file_keys Hv Hs) as Hn.
  rewrite Hj in Hjob. injection Hjob as <-.
  destruct (fields_untimed us job0) as (Hst & Hp & Hurl & _).
  exists us. split; [done|].
  remember (map strip us) as blocks eqn:Hcs.
  destruct Ho as [e cs ps Hi|url Hall].
  - destruct (interrupted_final _ _ _ _ _ _ (untimed job0) Hi
                (created_untimed _ _ _ Hc) Hn) as (F1 & _).
    congruence.
  - destruct (succeeded_final (length (surviving E file_keys)) url (untimed job0))
      as (_ & F2 & F3).
    assert (Hw : progress_written us
                 = map (λ i, collect_progress i (length (surviving E file_keys)))
                     (seq 1 (length (surviving E file_keys)))
                   ++ [30; 50; 75; 100]).
    { by rewrite <- progress_written_strip, <- Hcs, progress_written_success. }
    split; [done|]. split; [|split; [congruence|by rewrite Hurl, F2]].
    intros H3. rewrite Hw, H3. by vm_compute.
Qed.

(** C7: along the history of a job, from its creation on, progress never
    decreases, [filesCompleted] never decreases and is never more than
    [totalFiles], and [totalFiles] keeps its creation value. *)
Theorem counters_monotone E uuid file_keys st :
  valid_request file_keys = true →
  surviving E file_keys ≠ [] →
  ∃ job us,
    created_as uuid (surviving E file_keys) job
    ∧ assigns uuid (trace (initiate E uuid file_keys st).2)
      = assigns uuid (trace st) ++ us
    ∧ jobs (initiate E uuid file_keys st).2 !! uuid = Some (apply_all us job)
    ∧ (∀ i a b,
         history job us !! i = Some a → history job us !! S i = Some b →
         progress a ≤ progress b ∧ filesCompleted a ≤ filesCompleted b)
    ∧ (∀ a, a ∈ history job us →
         filesCompleted a ≤ totalFiles a ∧ totalFiles a = totalFiles job).
Proof.
  intros Hv Hs.
  destruct (run_history E uuid file_keys st Hv Hs)
    as (job & us & ps & Hc & Ha & Hj & _ & _ & Hg).
  exists job, us. repeat (split; [done|]). split.
  - intros i a b Hx Hy.
    destruct (path_ok_successive _ _ _ _ _ Hg Hx Hy) as (? & ? & _). by split.
  - intros a Hin. apply elem_of_cons in Hin as [->|Hin].
    + split; [|done]. by destruct (created_state_ok _ _ _ Hc) as [[_ ?] _].
    + split; [|by apply (path_ok_total _ _ _ Hg)].
      by destruct (path_ok_states _ _ _ Hg Hin) as [[_ ?] _].
Qed.

(** C8: in every state of the history of a job, the result and the error
    are never both set; exactly one of them is set when the status is
    Completed or Failed, and neither when it is Queued or Processing; and
    from a state with a terminal status on, the status is the same in every
    later state. *)
Theorem result_xor_error E uuid file_keys st :
  valid_request file_keys = true →
  surviving E file_keys ≠ [] →
  ∃ job us,
    created_as uuid (surviving E file_keys) job
    ∧ assigns uuid (trace (initiate E uuid file_keys st).2)
      = assigns uuid (trace st) ++ us
    ∧ jobs (initiate E uuid file_keys st).2 !! uuid = Some (apply_all us job)
    ∧ (∀ a, a ∈ history job us →
         ¬ (is_Some (downloadUrl a) ∧ is_Some (error a))
         ∧ (terminal (status a) →
              (is_Some (downloadUrl a) ∧ error a = None)
              ∨ (downloadUrl a = None ∧ is_Some (error a)))
         ∧ (¬ terminal (status a) → downloadUrl a = None ∧ error a = None))
    ∧ (∀ i k a b,
         (i ≤ k)%nat →
         history job us !! i = Some a → history job us !! k = Some b →
         terminal (status a) → status b = status a).
Proof.
  intros Hv Hs.
  destruct (run_history E uuid file_keys st Hv Hs)
    as (job & us & ps & Hc & Ha & Hj & _ & _ & Hg).
  exists job, us. repeat (split; [done|]). split.
  - intros a Hin.
    assert (Hok : state_ok a).
    { apply elem_of_cons in Hin as [->|Hin].
      - by apply (created_state_ok uuid (surviving E file_keys)).
      - by apply (path_ok_states _ _ _ Hg). }
    destruct Hok as [_ Hok]. unfold terminal.
    destruct (status a); destruct Hok as [H1 H2]; rewrite ?H1, ?H2;
      (split; [intros [[? ?] [? ?]]; congruence|]);
      (split; [intros [?|?]; try congruence; auto|]);
      intros Hnt; try done; destruct Hnt; auto.
  - intros i k a b. by apply path_ok_later.
Qed.

Lemma moves_job id st st' cs ps job :
  Moves id st st' cs ps → jobs st !! id = Some job →
  ∃ job', jobs st' !! id = Some job' ∧ untimed job' = apply_all cs (untimed job).
Proof.
  intros [(us & <- & _ & Hj) _] Hjob. rewrite Hjob in Hj.
  eexists. split; [done|]. apply apply_all_untimed.
Qed.

(** C9: every file a run collects carries the checksum of its bytes, so the
    integrity check of Phase 2 passes on the collected files, in any state;
    and were a file to carry another checksum, the job would fail with the
    integrity error before anything is uploaded. *)
Theorem checksums_agree E id n keys st tempFiles st' :
  collect E id n 0 keys [] st = (inr tempFiles, st') →
  Forall (consistent E) tempFiles
  ∧ (∀ st1, verify E tempFiles st1 = (inr tt, st1))
  ∧ (∀ fileKeys good bad rest st1,
       is_Some (jobs st1 !! id) →
       Forall (consistent E) good → ¬ consistent E bad →
       wp (try_catch (process_collected E id fileKeys (good ++ bad :: rest))
             (on_error E id))
         (λ r st2,
            r = inl (ErrorObj ("Integrity check failed for file " +:+ key bad))
            ∧ uploads (trace st2) = uploads (trace st1)
            ∧ ∃ job,
                jobs st2 !! id = Some job
                ∧ status job = failed
                ∧ error job = Some ("Integrity check failed for file " +:+ key bad))
         st1).
Proof.
  intros Hrun.
  assert (Hc : Forall (consistent E) tempFiles).
  { pose proof (collect_spec E id n keys 0 [] st (Forall_nil_2 _)) as H.
    unfold wp in H. rewrite Hrun in H. apply H. }
  split; [done|]. split; [intros st1; by apply verify_ok|].
  intros fileKeys good bad rest st1 [job Hjob] Hgood Hbad.
  apply wp_try_catch. unfold process_collected. apply wp_bind.
  unfold wp at 1. rewrite (verify_mismatch E good bad rest st1 Hgood Hbad).
  cbn [fst snd]. unfold on_error.
  apply wp_bind, (wp_new_Date E id). intros now st2 H.
  apply wp_bind, (wp_mutate id). intros st3 H3. moved H H3.
  apply wp_bind, (wp_try_updateJob E id). intros st4 H4. moved H H4.
  apply wp_bind, (wp_console id). intros st5 H5. moved H H5.
  apply wp_throw. split; [done|].
  destruct (moves_job _ _ _ _ _ _ H Hjob) as (job' & Hjob' & Hfields).
  destruct H as [_ [Hu _]]. rewrite app_nil_r in Hu. split; [done|].
  exists job'. split; [done|].
  change (status job') with (status (untimed job')).
  change (error job') with (error (untimed job')).
  by rewrite Hfields.
Qed.

Lemma head_check_jobs E file_keys : ∀ validKeys st,
  jobs (head_check E file_keys validKeys st).2 = jobs st.
Proof.
  induction file_keys as [|k rest IH]; intros validKeys st; [done|].
  cbn [head_check]. destruct (s3_head E "source" k).
  - unfold bind, console, emit. cbn. by rewrite IH.
  - apply IH.
Qed.

(** C10: the handler keeps, in order, the requested keys whose HEAD on the
    source bucket succeeds and drops the others without an error; the job
    it creates has these keys as [fileKeys] and their number as
    [totalFiles]; and it answers with the validation error exactly when no
    requested key is kept, creating no job then. *)
Theorem head_check_filters_request E uuid file_keys st :
  valid_request file_keys = true →
  ((initiate E uuid file_keys st).1
   = inr (BadRequest "Validation Error" "No valid file keys found in source bucket")
   ↔ surviving E file_keys = [])
  ∧ (surviving E file_keys = [] → jobs (initiate E uuid file_keys st).2 = jobs st)
  ∧ (surviving E file_keys ≠ [] →
     (initiate E uuid file_keys st).1
     = inr (Initiated uuid queued (Z.of_nat (length (surviving E file_keys)))
              ("/v1/download/subscribe/" +:+ uuid) ("/v1/download/status/" +:+ uuid))
     ∧ ∃ job,
         jobs (initiate E uuid file_keys st).2 !! uuid = Some job
         ∧ fileKeys job = surviving E file_keys
         ∧ totalFiles job = Z.of_nat (length (surviving E file_keys))).
Proof.
  intros Hv.
  assert (Hsome : surviving E file_keys ≠ [] →
    (initiate E uuid file_keys st).1
    = inr (Initiated uuid queued (Z.of_nat (length (surviving E file_keys)))
             ("/v1/download/subscribe/" +:+ uuid) ("/v1/download/status/" +:+ uuid))
    ∧ ∃ job,
        jobs (initiate E uuid file_keys st).2 !! uuid = Some job
        ∧ fileKeys job = surviving E file_keys
        ∧ totalFiles job = Z.of_nat (length (surviving E file_keys))).
  { intros Hs.
    destruct (initiate_spec E uuid file_keys st Hv Hs)
      as [Hr (job & us & ps & Hc & _ & Hj & _)].
    split; [done|]. exists (apply_all us job). split; [done|].
    destruct (apply_all_keeps us job) as (_ & -> & ->).
    by destruct Hc as (_ & _ & ? & _ & _ & ? & _). }
  assert (Hnone : surviving E file_keys = [] →
    (initiate E uuid file_keys st).1
    = inr (BadRequest "Validation Error" "No valid file keys found in source bucket")
    ∧ jobs (initiate E uuid file_keys st).2 = jobs st).
  { intros Hs. unfold initiate. rewrite Hv.
    pose proof (head_check_spec E uuid file_keys [] st) as [Hr _].
    pose proof (head_check_jobs E file_keys [] st) as Hjobs.
    unfold bind. destruct (head_check E file_keys [] st) as [r st1].
    cbn [fst snd] in Hr, Hjobs. rewrite Hr, Hs. by cbn. }
  split; [split|split]; [|apply Hnone|apply Hnone|done].
  intros Hr. destruct (surviving E file_keys) as [|k l] eqn:Hs; [done|].
  destruct Hsome as [Hr' _]; [done|]. congruence.
Qed.

(** ** Where the code departs from the specification *)

(** C1: creation inserts the Queued record into the cache only; the table
    gets no row for the job, at creation or at any later point of the run
    ([insertJob] is never called, and [updateJob] returns when there is no
    row to update). *)
Theorem create_writes_no_row E uuid file_keys st :
  valid_request file_keys = true →
  surviving E file_keys ≠ [] →
  db st !! uuid = None →
  (∃ job,
     jobs (create E uuid (surviving E file_keys) st).2 !! uuid = Some job
     ∧ status job = queued)
  ∧ db (create E uuid (surviving E file_keys) st).2 !! uuid = None
  ∧ db (initiate E uuid file_keys st).2 !! uuid = None.
Proof.
  intros Hv Hs Hrow. split; [|split].
  - eexists. split; [cbn; by rewrite lookup_insert_eq|done].
  - done.
  - destruct (initiate_spec E uuid file_keys st Hv Hs)
      as [_ (job & us & ps & _ & _ & _ & _ & Hd & _)].
    apply not_elem_of_dom. rewrite Hd. by apply not_elem_of_dom.
Qed.

(** C2: a database write that throws at the checkpoint 30 makes the job
    Failed with the database's message, where the same run without the
    throw ends Completed. *)
Theorem checkpoint_write_failure_fails_job :
  (∃ job,
     jobs (initiate demo_env "job-1" ["a.txt"] empty_state).2 !! "job-1" = Some job
     ∧ status job = completed)
  ∧ (∃ job,
       jobs (initiate busy_env "job-1" ["a.txt"] empty_state).2 !! "job-1" = Some job
       ∧ status job = failed
       ∧ error job = Some "SQLITE_BUSY: database is locked"
       ∧ progress job = 30
       ∧ downloadUrl job = None).
Proof. split; eexists; (split; [vm_compute; reflexivity|done]). Qed.

(** C3: for a job that the table holds and the cache does not, the status
    endpoint answers 404, while the lookup of the subscribe endpoint finds
    the job in the table and puts it into the cache. *)
Theorem status_endpoint_skips_table :
  status_endpoint "job-0" restarted_state = NotFound404
  ∧ ∃ job,
      (cache_then_db demo_env "job-0" restarted_state).1 = inr (Some job)
      ∧ jobs (cache_then_db demo_env "job-0" restarted_state).2 !! "job-0" = Some job
      ∧ status job = completed.
Proof.
  split; [by vm_compute|]. eexists.
  split; [vm_compute; reflexivity|]. split; [vm_compute; reflexivity|done].
Qed.

Lemma poll_unchanged id job st later :
  jobs st !! id = Some job →
  Forall (λ st', jobs st' !! id = Some job) later →
  poll id (progress job, status job) later = [].
Proof.
  intros _ Hlater. induction Hlater as [|st' later Hst' _ IH]; [done|].
  cbn [poll]. unfold on_interval. rewrite Hst'. cbn [fst snd].
  rewrite bool_decide_eq_false_2; [done|]. intros [?|?]; congruence.
Qed.

Lemma subscribe_cached E id job later st :
  jobs st !! id = Some job →
  subscribe E id later st
  = (inr (SSE "progress"
            (mkPayload (job_jobId job) (status job) (progress job)
               (filesCompleted job) (totalFiles job) None None)
          :: poll id (progress job, status job) later), st).
Proof.
  intros Hjob. unfold subscribe, subscribe_attach, cache_then_db, bind, ret.
  cbv beta. by rewrite Hjob.
Qed.

(** C4: a subscriber that attaches to a job already Completed receives one
    [progress] message without [downloadUrl] and, however often the interval
    fires afterwards, nothing else: no [complete] message; the status
    endpoint returns the [downloadUrl] at the same time. *)
Theorem late_subscriber_gets_no_complete n :
  (subscribe demo_env "job-0" (replicate n finished_state) finished_state).1
  = inr [SSE "progress" (mkPayload "job-0" completed 100 1 1 None None)]
  ∧ status_endpoint "job-0" finished_state
    = Status200
        (mkStatusBody "job-0" completed 100 1 1
           (Some "http://localhost:9000/downloads/job-0.zip") None 0 9).
Proof.
  split; [|by vm_compute].
  assert (Hjob : jobs finished_state !! "job-0"
                 = Some (mkJobStatus "job-0" completed ["a.txt"] 100 1 1
                           (Some "http://localhost:9000/downloads/job-0.zip") None 0 9))
    by (by vm_compute).
  rewrite (subscribe_cached _ _ _ _ _ Hjob).
  rewrite (poll_unchanged "job-0" _ finished_state); [done|done|].
  by apply Forall_replicate.
Qed.

(** ** The theorems at concrete requests *)

Lemma create_writes_no_row_witness :
  valid_request ["a.txt"] = true
  ∧ (∃ job,
       jobs (create demo_env "job-1" (surviving demo_env ["a.txt"]) empty_state).2
         !! "job-1" = Some job
       ∧ status job = queued)
  ∧ db (create demo_env "job-1" (surviving demo_env ["a.txt"]) empty_state).2
      !! "job-1" = None
  ∧ db (initiate demo_env "job-1" ["a.txt"] empty_state).2 !! "job-1" = None.
Proof.
  split; [reflexivity|].
  apply (create_writes_no_row demo_env "job-1" ["a.txt"] empty_state).
  - reflexivity.
  - vm_compute. discriminate.
  - reflexivity.
Defined.

Lemma failed_fetch_fails_job_witness :
  valid_request ["a.txt"; "gone.txt"] = true
  ∧ ∃ job message,
      jobs (initiate demo_env "job-1" ["a.txt"; "gone.txt"] empty_state).2 !! "job-1"
      = Some job
      ∧ status job = failed
      ∧ error job = Some message
      ∧ names message "gone.txt"
      ∧ downloadUrl job = None
      ∧ uploads (trace (initiate demo_env "job-1" ["a.txt"; "gone.txt"] empty_state).2)
        = uploads (trace empty_state).
Proof.
  split; [reflexivity|].
  apply (failed_fetch_fails_job demo_env "job-1" ["a.txt"; "gone.txt"] empty_state
           ["a.txt"] "gone.txt" []).
  - reflexivity.
  - vm_compute. reflexivity.
  - intros i k Hk. destruct i as [|i]; [|destruct i; discriminate Hk].
    injection Hk as <-. exists [Byte.x2a]. split; [reflexivity|discriminate].
  - intros (fileData & Hget & _). vm_compute in Hget. discriminate Hget.
Defined.

Lemma progress_of_successful_run_witness :
  valid_request ["a.txt"; "b.txt"; "c.txt"] = true
  ∧ ∃ us,
      assigns "job-1"
        (trace (initiate demo_env "job-1" ["a.txt"; "b.txt"; "c.txt"] empty_state).2)
      = assigns "job-1" (trace empty_state) ++ us
      ∧ progress_written us = [8; 17; 25; 30; 50; 75; 100].
Proof.
  split; [reflexivity|].
  destruct (progress_of_successful_run demo_env "job-1" ["a.txt"; "b.txt"; "c.txt"]
              empty_state
              (mkJobStatus "job-1" completed ["a.txt"; "b.txt"; "c.txt"] 100 3 3
                 (Some "http://localhost:9000/downloads/job-1.zip") None 0 10))
    as (us & Ha & _ & H3 & _).
  - reflexivity.
  - vm_compute. discriminate.
  - vm_compute. reflexivity.
  - reflexivity.
  - exists us. split; [exact Ha|]. apply H3. vm_compute. reflexivity.
Defined.

Lemma counters_monotone_witness :
  valid_request ["a.txt"; "missing.txt"; "gone.txt"] = true
  ∧ ∃ job us,
      created_as "job-1" ["a.txt"; "gone.txt"] job
      ∧ jobs (initiate demo_env "job-1" ["a.txt"; "missing.txt"; "gone.txt"]
                empty_state).2 !! "job-1"
        = Some (apply_all us job)
      ∧ (∀ i a b,
           history job us !! i = Some a → history job us !! S i = Some b →
           progress a ≤ progress b ∧ filesCompleted a ≤ filesCompleted b).
Proof.
  split; [reflexivity|].
  destruct (counters_monotone demo_env "job-1" ["a.txt"; "missing.txt"; "gone.txt"]
              empty_state)
    as (job & us & Hc & _ & Hj & Hmono & _).
  - reflexivity.
  - vm_compute. discriminate.
  - exists job, us. split; [exact Hc|]. split; [exact Hj|exact Hmono].
Defined.

Lemma result_xor_error_witness :
  valid_request ["a.txt"; "gone.txt"] = true
  ∧ ∃ job us,
      jobs (initiate demo_env "job-1" ["a.txt"; "gone.txt"] empty_state).2 !! "job-1"
      = Some (apply_all us job)
      ∧ (∀ a, a ∈ history job us →
           ¬ (is_Some (downloadUrl a) ∧ is_Some (error a))).
Proof.
  split; [reflexivity|].
  destruct (result_xor_error demo_env "job-1" ["a.txt"; "gone.txt"] empty_state)
    as (job & us & _ & _ & Hj & Hstates & _).
  - reflexivity.
  - vm_compute. discriminate.
  - exists job, us. split; [exact Hj|]. intros a Ha. apply (Hstates a Ha).
Defined.

Lemma checksums_agree_witness :
  ∃ tempFiles st',
    collect demo_env "job-1" 1 0 ["a.txt"] [] empty_state = (inr tempFiles, st')
    ∧ Forall (consistent demo_env) tempFiles
    ∧ ∀ st1, verify demo_env tempFiles st1 = (inr tt, st1).
Proof.
  exists [mkTempFile "a.txt" [Byte.x2a] "1"],
    (collect demo_env "job-1" 1 0 ["a.txt"] [] empty_state).2.
  assert (Hrun : collect demo_env "job-1" 1 0 ["a.txt"] [] empty_state
                 = (inr [mkTempFile "a.txt" [Byte.x2a] "1"],
                    (collect demo_env "job-1" 1 0 ["a.txt"] [] empty_state).2)).
  { vm_compute. reflexivity. }
  split; [exact Hrun|].
  destruct (checksums_agree demo_env "job-1" 1 ["a.txt"] empty_state _ _ Hrun)
    as (Hc & Hv & _).
  split; [exact Hc|exact Hv].
Defined.

Lemma head_check_filters_request_witness :
  valid_request ["a.txt"; "missing.txt"] = true
  ∧ ∃ job,
      jobs (initiate demo_env "job-1" ["a.txt"; "missing.txt"] empty_state).2 !! "job-1"
      = Some job
      ∧ fileKeys job = ["a.txt"]
      ∧ totalFiles job = 1.
Proof.
  split; [reflexivity|].
  destruct (head_check_filters_request demo_env "job-1" ["a.txt"; "missing.txt"]
              empty_state) as (_ & _ & Hsome).
  - reflexivity.
  - destruct Hsome as [_ Hjob].
    + vm_compute. discriminate.
    + exact Hjob.
Defined.

(** * More of the code *)

(** ** The run of a job *)

Lemma initiate_rejects E uuid file_keys st :
  valid_request file_keys = false ∨ surviving E file_keys = [] →
  ∃ error message,
    (initiate E uuid file_keys st).1 = inr (BadRequest error message)
    ∧ jobs (initiate E uuid file_keys st).2 = jobs st
    ∧ db (initiate E uuid file_keys st).2 = db st.
Proof.
  intros Hbad. unfold initiate.
  destruct (valid_request file_keys) eqn:Hv.
  - destruct Hbad as [?|Hs]; [done|].
    pose proof (head_check_spec E uuid file_keys [] st) as [Hr [_ [_ Hd]]].
    pose proof (head_check_jobs E file_keys [] st) as Hjobs.
    assert (Hdb : db (head_check E file_keys [] st).2 = db st).
    { clear. generalize (@nil string). revert st.
      induction file_keys as [|k rest IH]; intros st validKeys; [done|].
      cbn [head_check]. destruct (s3_head E "source" k); [|apply IH].
      unfold bind, console, emit. cbn. by rewrite IH. }
    unfold bind. destruct (head_check E file_keys [] st) as [r st1].
    cbn [fst snd] in *. rewrite Hr, Hs. cbn. by eexists _, _.
  - by eexists _, _.
Qed.

(** X1: the handler never throws and never leaves a job behind in a
    non-terminal state: either it answers 400 and the cache and the table
    are as before, or it answers with the job id and the job this id names
    has ended Completed or Failed. *)
Theorem initiate_settles E uuid file_keys st :
  (∃ error message,
     (initiate E uuid file_keys st).1 = inr (BadRequest error message)
     ∧ jobs (initiate E uuid file_keys st).2 = jobs st
     ∧ db (initiate E uuid file_keys st).2 = db st)
  ∨ (∃ total job,
       (initiate E uuid file_keys st).1
       = inr (Initiated uuid queued total
                ("/v1/download/subscribe/" +:+ uuid) ("/v1/download/status/" +:+ uuid))
       ∧ jobs (initiate E uuid file_keys st).2 !! uuid = Some job
       ∧ terminal (status job)).
Proof.
  destruct (valid_request file_keys) eqn:Hv; [|left; apply initiate_rejects; by left].
  destruct (decide (surviving E file_keys = [])) as [Hs|Hs];
    [left; apply initiate_rejects; by right|].
  right. destruct (initiate_spec E uuid file_keys st Hv Hs) as [Hr _].
  destruct (run_history E uuid file_keys st Hv Hs)
    as (job & us & ps & Hc & _ & Hj & _ & Ho & _).
  pose proof (valid_request_bound E file_keys Hv Hs) as Hn.
  destruct (fields_untimed us job) as (Hst & _).
  eexists _, _. split; [done|]. split; [done|]. rewrite Hst.
  remember (map strip us) as blocks eqn:Hcs.
  destruct Ho as [e cs ps Hi|url Hall].
  - right. by destruct (interrupted_final _ _ _ _ _ _ (untimed job) Hi
                          (created_untimed _ _ _ Hc) Hn) as (-> & _).
  - left. by destruct (succeeded_final (length (surviving E file_keys)) url
                         (untimed job)) as (-> & _).
Qed.

Lemma interrupted_blocks E id keys e cs ps before key after :
  Interrupted E id keys e cs ps →
  keys = before ++ key :: after →
  (∀ i k, before !! i = Some k → fetch_ok (s3_get E i "source" k)) →
  ¬ fetch_ok (s3_get E (length before) "source" key) →
  cs = collects (length keys) 0 (length before).
Proof.
  intros Hi Hkeys Hbefore Hkey.
  assert (Hat : keys !! length before = Some key).
  { rewrite Hkeys. by rewrite list_lookup_middle. }
  destruct Hi as [before' key' after' inner Hkeys' Hbefore' Hfail|e cps Hall _|e Hall];
    [|destruct Hkey; by apply Hall..].
  destruct (Nat.lt_trichotomy (length before') (length before)) as [Hlt|[Heq|Hgt]].
  - destruct (fetch_fails_not_ok _ _ _ Hfail). apply Hbefore.
    assert (keys !! length before' = Some key') as Hk'
      by (rewrite Hkeys'; by rewrite list_lookup_middle).
    rewrite Hkeys, lookup_app_l in Hk' by done. done.
  - by rewrite Heq.
  - destruct Hkey. apply Hbefore'.
    rewrite Hkeys', lookup_app_l in Hat by done. done.
Qed.

(** X2: a job that fails in Phase 1 keeps the counters of the files
    collected before the failing one: [filesCompleted] is their number and
    [progress] the value written for it, out of the unchanged
    [totalFiles]. *)
Theorem failed_fetch_keeps_counters E uuid file_keys st before key after :
  valid_request file_keys = true →
  surviving E file_keys = before ++ key :: after →
  (∀ i k, before !! i = Some k → fetch_ok (s3_get E i "source" k)) →
  ¬ fetch_ok (s3_get E (length before) "source" key) →
  ∃ job,
    jobs (initiate E uuid file_keys st).2 !! uuid = Some job
    ∧ filesCompleted job = Z.of_nat (length before)
    ∧ progress job = collect_progress (length before) (length (surviving E file_keys))
    ∧ totalFiles job = Z.of_nat (length (surviving E file_keys)).
Proof.
  intros Hv Hkeys Hbefore Hkey.
  assert (Hs : surviving E file_keys ≠ []) by (rewrite Hkeys; by destruct before).
  destruct (run_history E uuid file_keys st Hv Hs)
    as (job & us & ps & Hc & _ & Hj & _ & Ho & _).
  pose proof (valid_request_bound E file_keys Hv Hs) as Hn.
  exists (apply_all us job). split; [done|].
  change (filesCompleted (apply_all us job))
    with (filesCompleted (untimed (apply_all us job))).
  change (progress (apply_all us job)) with (progress (untimed (apply_all us job))).
  rewrite apply_all_untimed.
  destruct (apply_all_keeps us job) as (_ & _ & ->).
  split; [|split; [|by destruct Hc as (_ & _ & _ & _ & _ & ? & _)]];
    remember (map strip us) as blocks eqn:Hcs;
    (destruct Ho as [e cs ps Hi|url Hall];
     [|destruct Hkey; apply Hall; rewrite Hkeys; by rewrite list_lookup_middle]);
    rewrite (interrupted_blocks _ _ _ _ _ _ _ _ _ Hi Hkeys Hbefore Hkey);
    destruct (start_good uuid (surviving E file_keys) (untimed job)
                (created_untimed _ _ _ Hc)) as (_ & W0 & P0 & F0);
    destruct (collects_good (length (surviving E file_keys)) (length before) 0 _ W0)
      as (_ & _ & P & F);
    try (by rewrite collect_progress_zero);
    try done;
    try (rewrite Hkeys, length_app; cbn [length];
         rewrite Hkeys, length_app in Hn; cbn [length] in Hn; lia);
    rewrite apply_all_cons, apply_all_app; cbn [Nat.add] in P, F.
  - by rewrite <- F.
  - by rewrite <- P.
Qed.

(** ** What is uploaded *)

Lemma put_events_app tr1 tr2 : put_events (tr1 ++ tr2) = put_events tr1 ++ put_events tr2.
Proof. apply omap_app. Qed.

Lemma Puts_refl st : Puts st st [].
Proof. unfold Puts. by rewrite app_nil_r. Qed.

Lemma Puts_same st st' : trace st' = trace st → Puts st st' [].
Proof. unfold Puts. intros ->. by rewrite app_nil_r. Qed.

Lemma Puts_trans st1 st2 st3 evs1 evs2 :
  Puts st1 st2 evs1 → Puts st2 st3 evs2 → Puts st1 st3 (evs1 ++ evs2).
Proof. unfold Puts. intros H1 H2. by rewrite H2, H1, app_assoc. Qed.

Lemma wp_conj {A} (m : M A) (Q1 Q2 : Thrown + A → State → Prop) st :
  wp m Q1 st → wp m Q2 st → wp m (λ r st', Q1 r st' ∧ Q2 r st') st.
Proof. by split. Qed.

Ltac put H H' :=
  generalize (Puts_trans _ _ _ _ _ H H'); clear H H'; intros H; cbn [app] in H.

Section Uploads.

Context (E : Env) (id : string).

Lemma puts_new_Date Q st :
  (∀ now st', Puts st st' [] → Q (inr now) st') → wp (new_Date E) Q st.
Proof. intros H. apply H. by apply Puts_same. Qed.

Lemma puts_console line Q st :
  (∀ st', Puts st st' [] → Q (inr tt) st') → wp (console line) Q st.
Proof.
  intros H. apply H. unfold Puts, console, emit, log_event. cbn [trace fst snd].
  by rewrite put_events_app.
Qed.

Lemma puts_mutate u Q st :
  (∀ st', Puts st st' [] → Q (inr tt) st') → wp (mutate id u) Q st.
Proof.
  intros H. apply H. unfold Puts, mutate, log_event, set_jobs. cbn [trace fst snd].
  by rewrite put_events_app.
Qed.

Lemma puts_updateJob u Q st :
  (∀ r st', Puts st st' [] → Q r st') → wp (updateJob E id u) Q st.
Proof.
  intros H. unfold wp, updateJob, db_call.
  destruct (db_fault E (db_ops st)); [by apply H, Puts_same|].
  cbn. destruct (db st !! id); by apply H, Puts_same.
Qed.

Lemma puts_try_updateJob u Q st :
  (∀ st', Puts st st' [] → Q (inr tt) st') → wp (try_updateJob E id u) Q st.
Proof.
  intros H. apply wp_try_catch, puts_updateJob. intros [e|[]] st1 H1; [|by apply H].
  apply puts_console. intros st2 H2. put H1 H2. by apply H.
Qed.

Lemma puts_emit bucket k body metadata Q st :
  (∀ st', Puts st st' [EvPut bucket k body metadata] → Q (inr tt) st') →
  wp (emit (EvPut bucket k body metadata)) Q st.
Proof.
  intros H. apply H. unfold Puts, emit, log_event. cbn [trace fst snd].
  by rewrite put_events_app.
Qed.

Lemma collect_entries n keys : ∀ i tempFiles st,
  wp (collect E id n i keys tempFiles)
    (λ r st',
       Puts st st' []
       ∧ match r with
         | inr tempFiles' => entries tempFiles' = entries tempFiles ++ fetched E i keys
         | inl _ => True
         end) st.
Proof.
  induction keys as [|k rest IH]; intros i tempFiles st.
  - apply wp_ret. split; [apply Puts_refl|by rewrite app_nil_r].
  - cbn [collect fetched]. apply wp_bind. unfold collect_file. apply wp_try_catch.
    assert (Hthrow : ∀ e,
      wp (let* _ := console ("[Download] Job " +:+ id +:+ ": Failed to collect file "
                             +:+ k +:+ ":") in
          throw (ErrorObj ("Failed to collect file " +:+ k +:+ ": " +:+ error_message e)))
        (λ (r : Thrown + list TempFile) st',
           match r with
           | inl _ => Puts st st' [] ∧ True
           | inr a => wp (collect E id n (S i) rest a)
                        (λ r st'', Puts st st'' []
                                   ∧ match r with
                                     | inr tempFiles' =>
                                         entries tempFiles'
                                         = entries tempFiles
                                           ++ (k, body_of (s3_get E i "source" k))
                                              :: fetched E (S i) rest
                                     | inl _ => True
                                     end) st'
           end) st).
    { intros e. apply wp_bind, puts_console. intros st1 H1. by apply wp_throw. }
    destruct (s3_get E i "source" k) as [e| |fileData] eqn:Hget;
      [apply wp_throw, Hthrow|apply wp_throw, Hthrow|].
    destruct (length fileData =? 0)%nat; [apply wp_throw, Hthrow|].
    apply wp_bind, puts_new_Date. intros now st1 H.
    apply wp_bind, puts_mutate. intros st2 H2. put H H2.
    apply wp_bind, puts_try_updateJob. intros st3 H3. put H H3.
    apply wp_ret. eapply wp_mono; [apply IH|].
    intros r st4 [H4 Hr]. put H H4. split; [done|].
    destruct r as [e|tempFiles']; [done|]. rewrite Hr.
    unfold entries. rewrite map_app, <- app_assoc. done.
Qed.

Lemma verify_pure tempFiles st : (verify E tempFiles st).2 = st.
Proof.
  induction tempFiles as [|file rest IH]; [done|].
  cbn [verify]. by destruct (decide _).
Qed.

Lemma process_collected_puts fileKeys tempFiles st :
  wp (process_collected E id fileKeys tempFiles)
    (λ r st',
       match r with
       | inr _ =>
           ∃ body metadata,
             archiver_zip E (entries tempFiles) = inr body
             ∧ m_jobId metadata = id
             ∧ m_fileCount metadata = pretty (length fileKeys)
             ∧ Puts st st' [EvPut (downloads_bucket E) (id +:+ ".zip") body metadata]
       | inl _ => True
       end) st.
Proof.
  unfold process_collected. apply wp_bind. unfold wp at 1.
  pose proof (verify_pure tempFiles st) as Hst.
  destruct (verify E tempFiles st) as [[e|[]] st0]; cbn [fst snd] in *; [done|].
  subst st0.
  apply wp_bind, puts_new_Date. intros now1 st1 H.
  apply wp_bind, puts_mutate. intros st2 H2. put H H2.
  apply wp_bind, puts_updateJob. intros [e|[]] st3 H3; [done|]. put H H3.
  apply wp_bind. fold (entries tempFiles).
  destruct (archiver_zip E (entries tempFiles)) as [err|archiveBuffer]; [by apply wp_throw|].
  apply wp_ret, wp_bind, puts_new_Date. intros now2 st4 H4. put H H4.
  apply wp_bind, puts_mutate. intros st5 H5. put H H5.
  apply wp_bind, puts_updateJob. intros [e|[]] st6 H6; [done|]. put H H6.
  apply wp_bind, puts_new_Date. intros uploaded st7 H7. put H H7.
  apply wp_bind.
  destruct (s3_put E _ _ _ _) as [err|]; [by apply wp_throw|].
  apply puts_emit. intros st8 H8. put H H8.
  apply wp_bind, puts_new_Date. intros now3 st9 H9. put H H9.
  apply wp_bind, puts_mutate. intros st10 H10. put H H10.
  apply wp_bind, puts_try_updateJob. intros st11 H11. put H H11.
  apply wp_bind.
  destruct (getSignedUrl E _ _ _) as [err|url]; [by apply wp_throw|].
  apply wp_ret, wp_bind, puts_new_Date. intros now4 st12 H12. put H H12.
  apply wp_bind, puts_mutate. intros st13 H13. put H H13.
  apply puts_try_updateJob. intros st14 H14. put H H14.
  by exists archiveBuffer, (mkMetadata id (pretty (length fileKeys)) uploaded).
Qed.

Lemma processDownloadJob_puts fileKeys st :
  is_Some (jobs st !! id) →
  wp (processDownloadJob E id fileKeys)
    (λ r st',
       match r with
       | inr _ =>
           ∃ body metadata,
             archiver_zip E (fetched E 0 fileKeys) = inr body
             ∧ m_jobId metadata = id
             ∧ m_fileCount metadata = pretty (length fileKeys)
             ∧ Puts st st' [EvPut (downloads_bucket E) (id +:+ ".zip") body metadata]
       | inl _ => True
       end) st.
Proof.
  intros [job Hjob].
  eapply wp_eq; [unfold processDownloadJob; by rewrite Hjob|].
  apply wp_bind, puts_new_Date. intros now st1 H.
  apply wp_bind, puts_mutate. intros st2 H2. put H H2.
  apply wp_bind, puts_try_updateJob. intros st3 H3. put H H3.
  assert (Hfail : ∀ e st4,
    wp (on_error E id e)
      (λ (r : Thrown + ()) st', match r with inr _ => False | inl _ => True end) st4).
  { intros e st4. unfold on_error.
    apply wp_bind, puts_new_Date. intros now' st5 _.
    apply wp_bind, puts_mutate. intros st6 _.
    apply wp_bind, puts_try_updateJob. intros st7 _.
    apply wp_bind, puts_console. intros st8 _. by apply wp_throw. }
  apply wp_try_catch. unfold pipeline. apply wp_bind.
  eapply wp_mono; [apply collect_entries|].
  intros [e|tempFiles] st4 [H4 Hentries]; put H H4.
  { eapply wp_mono; [apply Hfail|]. by intros [|] ?. }
  eapply wp_mono; [apply process_collected_puts|].
  intros [e|[]] st5.
  - intros _. eapply wp_mono; [apply Hfail|]. by intros [|] ?.
  - intros (body & metadata & Hzip & Hid & Hcount & H5). put H H5.
    exists body, metadata. change (entries [] ++ ?l) with l in Hentries.
    by rewrite <- Hentries.
Qed.

End Uploads.

Lemma fetched_keys E keys : ∀ i, map fst (fetched E i keys) = keys.
Proof.
  induction keys as [|k rest IH]; intros i; [done|].
  cbn [fetched map fst]. by rewrite IH.
Qed.

Lemma status_after_block us u a s :
  u_status u = Some s → status (apply_all (us ++ [u]) a) = s.
Proof. intros Hu. rewrite apply_all_app. cbn. by rewrite Hu. Qed.

Lemma background_upload E id validKeys st job0 :
  jobs st !! id = Some job0 →
  wp (background E id validKeys)
    (λ r st',
       ∀ job, jobs st' !! id = Some job → status job = completed →
         ∃ body metadata,
           archiver_zip E (fetched E 0 validKeys) = inr body
           ∧ m_jobId metadata = id
           ∧ m_fileCount metadata = pretty (length validKeys)
           ∧ Puts st st' [EvPut (downloads_bucket E) (id +:+ ".zip") body metadata]) st.
Proof.
  intros Hjob. assert (Hsome : is_Some (jobs st !! id)) by by eexists.
  unfold background. apply wp_try_catch.
  eapply wp_mono;
    [apply (wp_conj _ _ _ _ (processDownloadJob_spec E id validKeys st Hsome)
              (processDownloadJob_puts E id validKeys st Hsome))|].
  intros [e|[]] st1.
  - intros [(cs & ps & _ & H) _]. unfold on_rejected.
    apply wp_bind, (wp_console id). intros st2 H2. moved H H2.
    destruct (Moves_present _ _ _ _ _ H Hsome) as [job2 Hjob2].
    eapply wp_eq; [by rewrite Hjob2|].
    apply wp_bind, (wp_new_Date E id). intros now st3 H3. moved H H3.
    apply wp_bind, (wp_mutate id). intros st4 H4. moved H H4.
    apply (wp_try_updateJob E id). intros st5 H5. moved H H5.
    intros job Hfinal Hdone.
    destruct (moves_job _ _ _ _ _ _ H Hjob) as (job' & Hjob' & Hfields).
    rewrite Hfinal in Hjob'. injection Hjob' as <-.
    change (status job) with (status (untimed job)) in Hdone.
    rewrite Hfields, ?app_nil_r, app_comm_cons in Hdone.
    by rewrite (status_after_block _ _ _ failed) in Hdone.
  - intros [_ Hput] job _ _. exact Hput.
Qed.

Lemma head_check_puts E file_keys : ∀ validKeys st,
  Puts st (head_check E file_keys validKeys st).2 [].
Proof.
  induction file_keys as [|k rest IH]; intros validKeys st; [apply Puts_refl|].
  cbn [head_check]. destruct (s3_head E "source" k); [|apply IH].
  unfold bind, console, emit. cbn [fst snd].
  eapply (Puts_trans _ _ _ [] []); [|apply IH].
  unfold Puts, log_event. cbn [trace]. by rewrite put_events_app.
Qed.

(** An accepted request, step by step: the HEAD checks, the creation of
    the record, the task. *)
Lemma initiate_unfold E uuid file_keys st :
  valid_request file_keys = true →
  surviving E file_keys ≠ [] →
  ∃ st1 job0,
    put_events (trace st1) = put_events (trace st)
    ∧ jobs st1 !! uuid = Some job0
    ∧ created_as uuid (surviving E file_keys) job0
    ∧ (initiate E uuid file_keys st).2
      = (background E uuid (surviving E file_keys) st1).2.
Proof.
  intros Hv Hs.
  pose proof (head_check_spec E uuid file_keys [] st) as [Hr _].
  pose proof (head_check_puts E file_keys [] st) as Hp.
  unfold initiate. rewrite Hv. unfold bind at 1.
  destruct (head_check E file_keys [] st) as [r st0]. cbn [fst snd app] in Hr, Hp.
  subst r. destruct (surviving E file_keys) as [|k l] eqn:Hkeys; [done|].
  rewrite <- Hkeys in *. replace (length (surviving E file_keys) =? 0)%nat with false
    by (by rewrite Hkeys).
  set (st1 := (create E uuid (surviving E file_keys) st0).2).
  assert (Hcreate : create E uuid (surviving E file_keys) st0 = (inr tt, st1))
    by reflexivity.
  unfold bind at 1. rewrite Hcreate.
  eexists st1, _. split; [|split; [|split]].
  - unfold Puts in Hp. rewrite app_nil_r in Hp. exact Hp.
  - subst st1. cbn. apply lookup_insert_eq.
  - done.
  - unfold bind. by destruct (background E uuid _ _) as [[?|[]] ?].
Qed.

(** X3: in a run that ends Completed, exactly one object is uploaded: to
    the downloads bucket, under ["{id}.zip"], with the job id and the number
    of keys as metadata; its body is what the archiver makes of one entry
    per key, in the order of the keys, each named by its key and holding the
    bytes the source bucket returned for it. *)
Theorem upload_is_archive_of_fetched E uuid file_keys st job :
  valid_request file_keys = true →
  surviving E file_keys ≠ [] →
  jobs (initiate E uuid file_keys st).2 !! uuid = Some job →
  status job = completed →
  ∃ body metadata,
    put_events (trace (initiate E uuid file_keys st).2)
    = put_events (trace st)
      ++ [EvPut (downloads_bucket E) (uuid +:+ ".zip") body metadata]
    ∧ archiver_zip E (fetched E 0 (surviving E file_keys)) = inr body
    ∧ map fst (fetched E 0 (surviving E file_keys)) = surviving E file_keys
    ∧ m_jobId metadata = uuid
    ∧ m_fileCount metadata = pretty (length (surviving E file_keys)).
Proof.
  intros Hv Hs Hjob Hdone.
  destruct (initiate_unfold E uuid file_keys st Hv Hs) as (st1 & job0 & Hp & Hj0 & _ & Heq).
  rewrite Heq in *.
  destruct (background_upload E uuid (surviving E file_keys) st1 job0 Hj0 job Hjob Hdone)
    as (body & metadata & Hzip & Hid & Hcount & Hput).
  exists body, metadata. unfold Puts in Hput. rewrite Hput, Hp.
  by rewrite fetched_keys.
Qed.

Lemma upload_is_archive_of_fetched_witness :
  valid_request ["a.txt"; "b.txt"] = true
  ∧ ∃ body metadata,
      put_events (trace (initiate demo_env "job-1" ["a.txt"; "b.txt"] empty_state).2)
      = put_events (trace empty_state)
        ++ [EvPut (downloads_bucket demo_env) ("job-1" +:+ ".zip") body metadata]
      ∧ archiver_zip demo_env (fetched demo_env 0 (surviving demo_env ["a.txt"; "b.txt"]))
        = inr body
      ∧ map fst (fetched demo_env 0 (surviving demo_env ["a.txt"; "b.txt"]))
        = surviving demo_env ["a.txt"; "b.txt"]
      ∧ m_jobId metadata = "job-1"
      ∧ m_fileCount metadata = pretty (length (surviving demo_env ["a.txt"; "b.txt"])).
Proof.
  split; [reflexivity|].
  apply (upload_is_archive_of_fetched demo_env "job-1" ["a.txt"; "b.txt"] empty_state
           (mkJobStatus "job-1" completed ["a.txt"; "b.txt"] 100 2 2
              (Some "http://localhost:9000/downloads/job-1.zip") None 0 9)).
  - reflexivity.
  - vm_compute. discriminate.
  - vm_compute. reflexivity.
  - reflexivity.
Defined.

Lemma failed_fetch_keeps_counters_witness :
  valid_request ["a.txt"; "b.txt"; "gone.txt"] = true
  ∧ ∃ job,
      jobs (initiate demo_env "job-1" ["a.txt"; "b.txt"; "gone.txt"] empty_state).2
        !! "job-1" = Some job
      ∧ filesCompleted job = 2
      ∧ progress job = 17
      ∧ totalFiles job = 3.
Proof.
  split; [reflexivity|].
  destruct (failed_fetch_keeps_counters demo_env "job-1" ["a.txt"; "b.txt"; "gone.txt"]
              empty_state ["a.txt"; "b.txt"] "gone.txt" [])
    as (job & Hj & Hf & Hp & Ht).
  - reflexivity.
  - vm_compute. reflexivity.
  - intros i k Hk. destruct i as [|[|i]]; [| |destruct i; discriminate Hk];
      injection Hk as <-; exists [Byte.x2a]; (split; [reflexivity|discriminate]).
  - intros (fileData & Hget & _). vm_compute in Hget. discriminate Hget.
  - exists job. split; [exact Hj|]. split; [exact Hf|]. split; [|exact Ht].
    rewrite Hp. vm_compute. reflexivity.
Defined.

(** ** The push channel *)

Lemma on_interval_cases id last st :
  (on_interval id last st = ([], last, false) ∧ jobs st !! id = None)
  ∨ (on_interval id last st = ([], last, true)
     ∧ ∃ job, jobs st !! id = Some job ∧ last = (progress job, status job))
  ∨ (∃ job,
       jobs st !! id = Some job
       ∧ (progress job, status job) ≠ last
       ∧ on_interval id last st
         = ([update_message job], (progress job, status job),
            negb (bool_decide (terminal (status job))))).
Proof.
  unfold on_interval. destruct (jobs st !! id) as [job|]; [|by left].
  right. destruct last as [p s]. cbn [fst snd]. case_bool_decide as Hch.
  - right. exists job. split; [done|]. split; [|done].
    intros [= Hp Hs]. by destruct Hch.
  - left. split; [done|]. exists job. split; [done|].
    destruct (decide (progress job = p)) as [->|]; [|destruct Hch; by left].
    destruct (decide (status job = s)) as [->|]; [done|destruct Hch; by right].
Qed.

(** X4: the interval never writes a redundant message: each message it
    writes reports a progress or a status that differs from what the
    message before it reported (for the first, from what the initial
    snapshot reported). *)
Theorem poll_never_repeats id later : ∀ last,
  each_differs last (poll id last later).
Proof.
  induction later as [|st later IH]; intros last; [done|].
  cbn [poll].
  destruct (on_interval_cases id last st) as [[-> _]|[[-> _]|(job & _ & Hne & ->)]].
  - done.
  - apply IH.
  - cbn. split; [done|]. destruct (negb _); [apply IH|done].
Qed.



(** X7: for an id that neither the cache nor the table holds, the
    subscriber receives the not-found message alone, however often the
    interval would fire, and the cache and the table stay as they were. *)
Theorem subscribe_unknown E id later st :
  jobs st !! id = None →
  db st !! id = None →
  db_fault E (db_ops st) = None →
  (subscribe E id later st).1 = inr [JobNotFound]
  ∧ jobs (subscribe E id later st).2 = jobs st
  ∧ db (subscribe E id later st).2 = db st.
Proof.
  intros Hcache Hrow Hfault.
  unfold subscribe, subscribe_attach, cache_then_db, bind, getJob, db_call, ret.
  cbv beta. rewrite Hcache, Hfault. cbn [tick_db db]. by rewrite Hrow.
Qed.

(** X8: for a job that only the table holds, attaching a subscriber reads
    the row, answers with its progress, and puts the job into the cache, so
    that the status endpoint, which answered 404 before, answers 200 with
    the values of the row afterwards. *)
Theorem subscribe_hydrates E id row st :
  jobs st !! id = None →
  db st !! id = Some row →
  db_fault E (db_ops st) = None →
  status_endpoint id st = NotFound404
  ∧ (subscribe_attach E id st).1
    = inr ([SSE "progress"
              (mkPayload (database.job_id row) (database.status row)
                 (database.progress row) (database.files_completed row)
                 (database.total_files row) None None)],
           Some (database.progress row, database.status row))
  ∧ status_endpoint id (subscribe_attach E id st).2
    = Status200
        (mkStatusBody (database.job_id row) (database.status row)
           (database.progress row) (database.files_completed row)
           (database.total_files row) (or_null (database.download_url row))
           (or_null (database.error row)) (database.created_at row)
           (database.updated_at row))
  ∧ db (subscribe_attach E id st).2 = db st.
Proof.
  intros Hcache Hrow Hfault.
  split; [unfold status_endpoint; by rewrite Hcache|].
  unfold subscribe_attach, cache_then_db, bind, getJob, db_call, ret, status_endpoint.
  cbv beta. rewrite Hcache, Hfault. cbn [tick_db db]. rewrite Hrow.
  cbn. by rewrite lookup_insert_eq.
Qed.

(** ** The table *)

Lemma or_null_idem s : or_null (or_null s) = or_null s.
Proof. by destruct s as [[|]|]. Qed.

(** X9: a job inserted under a new id is read back with every field as it
    was written, except that a [downloadUrl] or [error] that is the empty
    string comes back unset. *)
Theorem insert_then_get E job st :
  db st !! jobId job = None →
  db_fault E (db_ops st) = None →
  db_fault E (S (db_ops st)) = None →
  ((let* _ := insertJob E job in getJob E (jobId job)) st).1
  = inr (Some (mkJobStatus (jobId job) (status job) (fileKeys job) (progress job)
                 (filesCompleted job) (totalFiles job) (or_null (downloadUrl job))
                 (or_null (error job)) (createdAt job) (updatedAt job))).
Proof.
  intros Hrow Hf1 Hf2. unfold insertJob, getJob, bind, db_call, ret.
  rewrite Hf1. cbn [tick_db db db_ops]. rewrite Hrow.
  cbn [set_db tick_db db db_ops fst snd]. rewrite Hf2. cbn [fst snd].
  rewrite lookup_insert_eq. destruct job as [i s k p f t url err c u].
  cbn [fmap option_fmap option_map database.row_of_job database.recordToJobStatus
       database.job_id database.status database.file_keys database.progress
       database.files_completed database.total_files database.download_url
       database.error database.created_at database.updated_at
       jobId status fileKeys progress filesCompleted totalFiles downloadUrl error
       createdAt updatedAt].
  unfold database.recordToJobStatus. cbn. by rewrite !or_null_idem.
Qed.

(** X10: inserting a job under an id the table already holds throws, and
    the table keeps the row it had. *)
Theorem insert_twice_throws E job row st :
  db st !! jobId job = Some row →
  db_fault E (db_ops st) = None →
  ∃ message,
    (insertJob E job st).1 = inl (ErrorObj message)
    ∧ db (insertJob E job st).2 = db st.
Proof.
  intros Hrow Hf. unfold insertJob, bind, db_call. rewrite Hf.
  cbn [tick_db db]. rewrite Hrow. by eexists.
Qed.

(** X11: [updateJob] adds no row and removes none, leaves the rows of the
    other ids as they are, never changes the id, the keys, the total or the
    creation time of the row it updates, and never touches the cache;
    whether it returns or throws. *)
Theorem updateJob_frame E id u st :
  dom (db (updateJob E id u st).2) = dom (db st)
  ∧ (∀ k, k ≠ id → db (updateJob E id u st).2 !! k = db st !! k)
  ∧ (∀ row', db (updateJob E id u st).2 !! id = Some row' →
       ∃ row,
         db st !! id = Some row
         ∧ database.job_id row' = database.job_id row
         ∧ database.file_keys row' = database.file_keys row
         ∧ database.total_files row' = database.total_files row
         ∧ database.created_at row' = database.created_at row)
  ∧ jobs (updateJob E id u st).2 = jobs st.
Proof.
  unfold updateJob, db_call. destruct (db_fault E (db_ops st)) as [e|].
  - cbn. split; [done|]. split; [done|]. split; [|done]. intros row' ->. by eexists.
  - cbn [tick_db db]. destruct (db st !! id) as [row|] eqn:Hrow; cbn.
    + split; [apply dom_insert_lookup_L; by rewrite Hrow|].
      split; [intros k Hk; by rewrite lookup_insert_ne|]. split; [|done].
      intros row'. rewrite lookup_insert_eq. intros [= <-]. by exists row.
    + split; [done|]. split; [done|]. split; [|done]. intros row'. by rewrite Hrow.
Qed.

(** X12: no update clears a result or an error: once the [downloadUrl] or
    the [error] of a job is set, it stays set under every later
    [updateJob] on the row and every later block of assignments on the
    cached job. *)
Theorem result_and_error_stay E id u st :
  (∀ row row',
     db st !! id = Some row → db (updateJob E id u st).2 !! id = Some row' →
     (is_Some (database.download_url row) → is_Some (database.download_url row'))
     ∧ (is_Some (database.error row) → is_Some (database.error row')))
  ∧ (∀ job job',
       jobs st !! id = Some job → jobs (mutate id u st).2 !! id = Some job' →
       (is_Some (downloadUrl job) → is_Some (downloadUrl job'))
       ∧ (is_Some (error job) → is_Some (error job'))).
Proof.
  split.
  - intros row row' Hrow. unfold updateJob, db_call.
    destruct (db_fault E (db_ops st)) as [e|]; cbn [tick_db db fst snd].
    + rewrite Hrow. by intros [= <-].
    + rewrite Hrow. cbn. rewrite lookup_insert_eq. intros [= <-]. cbn.
      split; intros [x ->]; [by destruct (u_downloadUrl u)|by destruct (u_error u)].
  - intros job job' Hjob. unfold mutate. cbn. rewrite lookup_alter_eq, Hjob.
    intros [= <-]. cbn.
    split; intros [x ->]; [by destruct (u_downloadUrl u)|by destruct (u_error u)].
Qed.

(** X13: when the row of a job reads back as the cached job, it still does
    after a block of assignments followed by the [updateJob] of the same
    fields, provided the database call does not throw and the block writes
    no empty string as [downloadUrl] or [error]. *)
Theorem update_keeps_mirror E id u st job row :
  jobs st !! id = Some job →
  db st !! id = Some row →
  database.recordToJobStatus row = job →
  db_fault E (db_ops st) = None →
  u_downloadUrl u ≠ Some "" →
  u_error u ≠ Some "" →
  ∃ job' row',
    jobs ((let* _ := mutate id u in updateJob E id u) st).2 !! id = Some job'
    ∧ db ((let* _ := mutate id u in updateJob E id u) st).2 !! id = Some row'
    ∧ database.recordToJobStatus row' = job'
    ∧ job' = assign u job.
Proof.
  intros Hjob Hrow Hmirror Hf Hurl Herr.
  unfold bind, mutate, updateJob, db_call. cbn [fst snd log_event set_jobs db_ops db].
  rewrite Hf. cbn [tick_db log_event set_jobs db]. rewrite Hrow.
  cbn [fst snd set_db tick_db log_event set_jobs jobs db].
  rewrite lookup_alter_eq, Hjob, lookup_insert_eq. cbn [fmap option_fmap option_map].
  eexists _, _. split; [done|]. split; [done|]. split; [|done].
  subst job. unfold database.recordToJobStatus, assign. cbn. f_equal.
  - destruct (u_downloadUrl u) as [[|]|]; done.
  - destruct (u_error u) as [[|]|]; done.
Qed.

(** ** Keys of single files *)








(** X15: the availability check never throws; it reports the key exactly
    when the file is available, and then the sanitized key; it reports
    neither key nor size of an unavailable file; and without a bucket
    configured a file is available exactly when its id is a multiple
    of 7, whatever the store holds. *)
Theorem availability_coherent E S random fileId :
  (available (checkS3Availability E S random fileId) = true →
   s3Key (checkS3Availability E S random fileId) = Some (sanitizeS3Key fileId))
  ∧ (available (checkS3Availability E S random fileId) = false →
     s3Key (checkS3Availability E S random fileId) = None
     ∧ size (checkS3Availability E S random fileId) = None)
  ∧ (S3_BUCKET_NAME E = "" →
     (available (checkS3Availability E S random fileId) = true ↔ (7 | fileId))).
Proof.
  unfold checkS3Availability. destruct (S3_BUCKET_NAME E) as [|c bucket].
  - destruct (Z.rem fileId 7 =? 0) eqn:Hrem; cbn.
    + split; [done|]. split; [done|]. intros _. split; [|done]. intros _.
      apply Z.rem_divide; [done|]. by apply Z.eqb_eq.
    + split; [done|]. split; [done|]. intros _. split; [done|]. intros Hdiv.
      apply Z.rem_divide in Hdiv; [|done]. apply Z.eqb_neq in Hrem. done.
  - destruct (head_object S _ _) as [e|len]; cbn; by repeat split.
Qed.

(** X16: the health route answers 200, [healthy] and [ok] together, or 503,
    [unhealthy] and [error] together; it answers healthy exactly when no
    bucket is configured, or the HEAD on the marker resolves, or the HEAD
    throws an error named [NotFound]. *)
Theorem health_route_coherent E S :
  (healthRoute E S = (200, "healthy", "ok")
   ∨ healthRoute E S = (503, "unhealthy", "error"))
  ∧ (healthRoute E S = (200, "healthy", "ok")
     ↔ S3_BUCKET_NAME E = ""
       ∨ (∃ len, head_object S (S3_BUCKET_NAME E) "__health_check_marker__" = inr len)
       ∨ (∃ message,
            head_object S (S3_BUCKET_NAME E) "__health_check_marker__"
            = inl (ErrorNamed "NotFound" message))).
Proof.
  unfold healthRoute, checkS3Health.
  destruct (S3_BUCKET_NAME E) as [|c bucket] eqn:Hb.
  - split; [by left|]. split; [by left|done].
  - destruct (head_object S _ _) as [[name message|]|len] eqn:Hhead.
    + case_bool_decide as Hname.
      * subst name. split; [by left|]. split; [|done]. intros _. right. right. by eexists.
      * split; [by right|]. split; [done|].
        intros [?|[[? ?]|[? [= ?]]]]; done.
    + split; [by right|]. split; [done|]. intros [?|[[? ?]|[? ?]]]; done.
    + split; [by left|]. split; [|done]. intros _. right. left. by eexists.
Qed.

(** ** The file route *)

(** X17: the file route streams an archive only for a job that the cache
    holds as Completed, and what it streams is the body the store returns
    for the key ["{id}.zip"] of the downloads bucket. *)
Theorem downloadFile_only_completed E S id st body headers :
  downloadFile E S id st = FileStream body headers →
  ∃ job len,
    jobs st !! id = Some job
    ∧ status job = completed
    ∧ get_object S (downloads_bucket E) (id +:+ ".zip") = inr (Some body, len).
Proof.
  unfold downloadFile. destruct (jobs st !! id) as [job|]; [|done].
  case_decide as Hst; [done|].
  destruct (get_object S _ _) as [e|[[stream|] len]]; [done| |done].
  intros [= <- _]. exists job, len. split; [done|]. split; [|done].
  by destruct (decide (status job = completed)).
Qed.

(** A job that is not in the cache gets 404 and a job that is not
    Completed gets 400 from the file route, whatever the store holds. *)
Lemma downloadFile_refuses E S id st :
  (jobs st !! id = None →
   downloadFile E S id st = FileError 404 "Not Found" ("Job " +:+ id +:+ " not found"))
  ∧ (∀ job,
       jobs st !! id = Some job → status job ≠ completed →
       downloadFile E S id st
       = FileError 400 "Bad Request" ("Job " +:+ id +:+ " is not completed yet")).
Proof.
  unfold downloadFile. split.
  - by intros ->.
  - intros job -> Hst. by rewrite decide_True.
Qed.

(** X18: after a run that ends Completed, the file route asks the store for
    the very object the run uploaded (same bucket, same key), and streams
    the bytes the store returns for it. *)
Theorem download_serves_upload E S uuid file_keys st job bytes len :
  valid_request file_keys = true →
  surviving E file_keys ≠ [] →
  jobs (initiate E uuid file_keys st).2 !! uuid = Some job →
  status job = completed →
  ∃ bucket k body metadata,
    put_events (trace (initiate E uuid file_keys st).2)
    = put_events (trace st) ++ [EvPut bucket k body metadata]
    ∧ (get_object S bucket k = inr (Some bytes, len) →
       ∃ headers,
         downloadFile E S uuid (initiate E uuid file_keys st).2
         = FileStream bytes headers).
Proof.
  intros Hv Hs Hjob Hdone.
  destruct (initiate_unfold E uuid file_keys st Hv Hs) as (st1 & job0 & Hp & Hj0 & _ & Heq).
  rewrite Heq in *.
  destruct (background_upload E uuid (surviving E file_keys) st1 job0 Hj0 job Hjob Hdone)
    as (body & metadata & _ & _ & _ & Hput).
  exists (downloads_bucket E), (uuid +:+ ".zip"), body, metadata.
  unfold Puts in Hput. rewrite Hput, Hp. split; [done|].
  intros Hget. unfold downloadFile. rewrite Hjob, decide_False, Hget by (by intros []).
  by eexists.
Qed.

(** ** The listing *)

Lemma to_files_spec E contents : ∀ st,
  ∃ files st',
    to_files E contents st = (inr files, st')
    ∧ map f_key files = map (λ obj, nullish (o_Key obj) "") contents
    ∧ map f_size files = map (λ obj, nullish (o_Size obj) 0) contents
    ∧ jobs st' = jobs st
    ∧ db st' = db st.
Proof.
  induction contents as [|obj rest IH]; intros st; [by exists [], st|].
  assert (Hdate : ∃ t st1,
    match o_LastModified obj with Some t => ret t | None => new_Date E end st
    = (inr t, st1) ∧ jobs st1 = jobs st ∧ db st1 = db st).
  { destruct (o_LastModified obj); by eexists _, _. }
  destruct Hdate as (t & st1 & Hdate & Hj1 & Hd1).
  destruct (IH st1) as (files & st2 & Hrest & Hk & Hs & Hj & Hd).
  eexists _, st2. split.
  - cbn [to_files]. unfold bind. rewrite Hdate, Hrest. reflexivity.
  - cbn [map f_key f_size]. by rewrite Hk, Hs, Hj, Hd.
Qed.

Lemma filter_listed_keys files :
  map f_key (List.filter listed files)
  = List.filter (λ k, negb (bool_decide (k = "")) && negb (endsWith_slash k))
      (map f_key files).
Proof.
  induction files as [|f files IH]; [done|].
  cbn [List.filter map]. unfold listed at 1.
  destruct (negb (bool_decide (f_key f = "")) && negb (endsWith_slash (f_key f)));
    cbn [map]; by rewrite IH.
Qed.

(** X19: the listing never throws and changes neither cache nor table; it
    answers 500 with no file when the store throws, and otherwise 200 with
    the keys of the bucket in their order, leaving out the objects without
    key and the keys that end in a slash. *)
Theorem listing_hides_folders E S st :
  ∃ code files,
    (listSourceFiles E S st).1 = inr (code, files)
    ∧ jobs (listSourceFiles E S st).2 = jobs st
    ∧ db (listSourceFiles E S st).2 = db st
    ∧ Forall (λ f, f_key f ≠ "" ∧ endsWith_slash (f_key f) = false) files
    ∧ match list_objects S "source" with
      | inl _ => code = 500 ∧ files = []
      | inr None => code = 200 ∧ files = []
      | inr (Some contents) =>
          code = 200
          ∧ map f_key files
            = List.filter (λ k, negb (bool_decide (k = "")) && negb (endsWith_slash k))
                (map (λ obj, nullish (o_Key obj) "") contents)
      end.
Proof.
  unfold listSourceFiles.
  destruct (list_objects S "source") as [e|[contents|]].
  - by exists 500, [].
  - destruct (to_files_spec E contents st) as (files & st1 & Hr & Hk & _ & Hj & Hd).
    unfold bind. rewrite Hr. exists 200, (List.filter listed files). cbn [ret fst snd].
    split; [done|]. split; [done|]. split; [done|]. split.
    + apply List.Forall_forall. intros f Hf. apply List.filter_In in Hf as [_ Hf].
      unfold listed in Hf. apply andb_prop in Hf as [H1 H2].
      apply negb_true_iff in H1, H2. by apply bool_decide_eq_false in H1.
    + split; [done|]. by rewrite filter_listed_keys, Hk.
  - by exists 200, [].
Qed.

(** ** The further theorems at concrete inputs *)



Lemma subscribe_unknown_witness :
  (subscribe demo_env "job-9" [empty_state] empty_state).1 = inr [JobNotFound]
  ∧ jobs (subscribe demo_env "job-9" [empty_state] empty_state).2 = jobs empty_state
  ∧ db (subscribe demo_env "job-9" [empty_state] empty_state).2 = db empty_state.
Proof.
  apply (subscribe_unknown demo_env "job-9" [empty_state] empty_state); reflexivity.
Defined.

Lemma subscribe_hydrates_witness :
  status_endpoint "job-0" restarted_state = NotFound404
  ∧ ∃ body,
      status_endpoint "job-0" (subscribe_attach demo_env "job-0" restarted_state).2
      = Status200 body
      ∧ b_downloadUrl body = Some "http://localhost:9000/downloads/job-0.zip".
Proof.
  destruct (subscribe_hydrates demo_env "job-0"
              (database.mkJobRecord "job-0" completed ["a.txt"] 100 1 1
                 (Some "http://localhost:9000/downloads/job-0.zip") None 0 9)
              restarted_state)
    as (H404 & _ & H200 & _).
  - reflexivity.
  - vm_compute. reflexivity.
  - reflexivity.
  - split; [exact H404|]. eexists. split; [exact H200|reflexivity].
Defined.

Lemma insert_then_get_witness :
  ((let* _ := insertJob demo_env running_job in getJob demo_env (jobId running_job))
     empty_state).1
  = inr (Some running_job).
Proof.
  apply (insert_then_get demo_env running_job empty_state); reflexivity.
Defined.

Lemma insert_twice_throws_witness :
  ∃ message,
    (insertJob demo_env running_job running_state).1 = inl (ErrorObj message)
    ∧ db (insertJob demo_env running_job running_state).2 = db running_state.
Proof.
  apply (insert_twice_throws demo_env running_job
           (database.mkJobRecord "job-0" processing ["a.txt"] 50 1 1 None None 0 5)
           running_state).
  - vm_compute. reflexivity.
  - reflexivity.
Defined.

Lemma update_keeps_mirror_witness :
  ∃ job' row',
    jobs ((let* _ := mutate "job-0" (progress_only 75 6) in
           updateJob demo_env "job-0" (progress_only 75 6)) running_state).2
      !! "job-0" = Some job'
    ∧ db ((let* _ := mutate "job-0" (progress_only 75 6) in
           updateJob demo_env "job-0" (progress_only 75 6)) running_state).2
        !! "job-0" = Some row'
    ∧ database.recordToJobStatus row' = job'
    ∧ job' = assign (progress_only 75 6) running_job.
Proof.
  apply (update_keeps_mirror demo_env "job-0" (progress_only 75 6) running_state
           running_job
           (database.mkJobRecord "job-0" processing ["a.txt"] 50 1 1 None None 0 5)).
  - vm_compute. reflexivity.
  - vm_compute. reflexivity.
  - reflexivity.
  - reflexivity.
  - discriminate.
  - discriminate.
Defined.

Lemma downloadFile_only_completed_witness :
  ∃ job len,
    jobs finished_state !! "job-0" = Some job
    ∧ status job = completed
    ∧ get_object demo_store (downloads_bucket demo_env) ("job-0" +:+ ".zip")
      = inr (Some [Byte.x50; Byte.x4b], len).
Proof.
  apply (downloadFile_only_completed demo_env demo_store "job-0" finished_state
           [Byte.x50; Byte.x4b]
           [("Content-Type", "application/zip");
            ("Content-Disposition",
             "attachment; filename=" +:+ dquote +:+ "job-0" +:+ ".zip" +:+ dquote);
            ("Cache-Control", "no-cache");
            ("Content-Length", "2")]).
  vm_compute. reflexivity.
Defined.

Lemma download_serves_upload_witness :
  ∃ bucket k body metadata,
    put_events (trace (initiate demo_env "job-1" ["a.txt"] empty_state).2)
    = put_events (trace empty_state) ++ [EvPut bucket k body metadata]
    ∧ (get_object demo_store bucket k = inr (Some [Byte.x50; Byte.x4b], Some 2) →
       ∃ headers,
         downloadFile demo_env demo_store "job-1"
           (initiate demo_env "job-1" ["a.txt"] empty_state).2
         = FileStream [Byte.x50; Byte.x4b] headers).
Proof.
  apply (download_serves_upload demo_env demo_store "job-1" ["a.txt"] empty_state
           (mkJobStatus "job-1" completed ["a.txt"] 100 1 1
              (Some "http://localhost:9000/downloads/job-1.zip") None 0 8)).
  - reflexivity.
  - vm_compute. discriminate.
  - vm_compute. reflexivity.
  - reflexivity.
Defined.

(** ** Runs in a world that is known *)

Section Known.

Context (E : Env) (id : string).

Lemma both_new_Date Q st :
  (∀ now st', Moves id st st' [] [] → Puts st st' [] → Q (inr now) st') →
  wp (new_Date E) Q st.
Proof.
  intros H. apply H.
  - by apply (wp_new_Date E id (λ _ st', Moves id st st' [] [])).
  - by apply (puts_new_Date E (λ _ st', Puts st st' [])).
Qed.

Lemma both_console line Q st :
  (∀ st', Moves id st st' [] [] → Puts st st' [] → Q (inr tt) st') →
  wp (console line) Q st.
Proof.
  intros H. apply H.
  - by apply (wp_console id line (λ _ st', Moves id st st' [] [])).
  - by apply (puts_console line (λ _ st', Puts st st' [])).
Qed.

Lemma both_mutate u Q st :
  (∀ st', Moves id st st' [strip u] [] → Puts st st' [] → Q (inr tt) st') →
  wp (mutate id u) Q st.
Proof.
  intros H. apply H.
  - by apply (wp_mutate id u (λ _ st', Moves id st st' [strip u] [])).
  - by apply (puts_mutate id u (λ _ st', Puts st st' [])).
Qed.

Lemma both_try_updateJob u Q st :
  (∀ st', Moves id st st' [] [] → Puts st st' [] → Q (inr tt) st') →
  wp (try_updateJob E id u) Q st.
Proof.
  intros H.
  pose proof (wp_try_updateJob E id u (λ r st', r = inr tt ∧ Moves id st st' [] []) st)
    as [Hr H1]; [done|].
  pose proof (puts_try_updateJob E id u (λ _ st', Puts st st' []) st) as H2.
  unfold wp in *. rewrite Hr. apply H; [done|by apply H2].
Qed.

Lemma both_put bucket k body metadata Q st :
  (∀ st', Moves id st st' [] [(bucket, k)] →
          Puts st st' [EvPut bucket k body metadata] → Q (inr tt) st') →
  wp (emit (EvPut bucket k body metadata)) Q st.
Proof.
  intros H. apply H.
  - by apply (wp_put id bucket k body metadata
                (λ _ st', Moves id st st' [] [(bucket, k)])).
  - by apply (puts_emit bucket k body metadata
                (λ _ st', Puts st st' [EvPut bucket k body metadata])).
Qed.

Hypothesis no_fault : ∀ n, db_fault E n = None.

Lemma both_updateJob u Q st :
  (∀ st', Moves id st st' [] [] → Puts st st' [] → Q (inr tt) st') →
  wp (updateJob E id u) Q st.
Proof.
  intros H.
  assert (Hr : (updateJob E id u st).1 = inr tt).
  { unfold updateJob, db_call. rewrite no_fault. by destruct (db (tick_db st) !! id). }
  pose proof (wp_updateJob E id u (λ _ st', Moves id st st' [] []) st) as H1.
  pose proof (puts_updateJob E id u (λ _ st', Puts st st' []) st) as H2.
  unfold wp in *. rewrite Hr. apply H; [by apply H1|by apply H2].
Qed.

Ltac stepped H P H' P' := moved H H'; put P P'.

Lemma process_collected_known fileKeys tempFiles archiveBuffer st :
  Forall (consistent E) tempFiles →
  archiver_zip E (entries tempFiles) = inr archiveBuffer →
  (∀ metadata,
     s3_put E (downloads_bucket E) (id +:+ ".zip") archiveBuffer metadata = None) →
  wp (process_collected E id fileKeys tempFiles)
    (λ r st',
       ∃ metadata,
         Puts st st' [EvPut (downloads_bucket E) (id +:+ ".zip") archiveBuffer metadata]
         ∧ match getSignedUrl E (downloads_bucket E) (id +:+ ".zip") 3600 with
           | inr url =>
               r = inr tt
               ∧ Moves id st st'
                   [progress_only 30 0; progress_only 50 0; progress_only 75 0;
                    completed_with url 0]
                   [(downloads_bucket E, id +:+ ".zip")]
           | inl e =>
               r = inl e
               ∧ Moves id st st'
                   [progress_only 30 0; progress_only 50 0; progress_only 75 0]
                   [(downloads_bucket E, id +:+ ".zip")]
           end) st.
Proof.
  intros Hc Hzip Hput. unfold process_collected. apply wp_bind.
  unfold wp at 1. rewrite (verify_ok _ _ _ Hc). cbn [fst snd].
  apply wp_bind, both_new_Date. intros now1 st1 H P.
  apply wp_bind, both_mutate. intros st2 H2 P2. stepped H P H2 P2.
  apply wp_bind, both_updateJob. intros st3 H3 P3. stepped H P H3 P3.
  apply wp_bind. fold (entries tempFiles). rewrite Hzip.
  apply wp_ret, wp_bind, both_new_Date. intros now2 st4 H4 P4. stepped H P H4 P4.
  apply wp_bind, both_mutate. intros st5 H5 P5. stepped H P H5 P5.
  apply wp_bind, both_updateJob. intros st6 H6 P6. stepped H P H6 P6.
  apply wp_bind, both_new_Date. intros uploaded st7 H7 P7. stepped H P H7 P7.
  apply wp_bind. rewrite Hput.
  apply both_put. intros st8 H8 P8. stepped H P H8 P8.
  apply wp_bind, both_new_Date. intros now3 st9 H9 P9. stepped H P H9 P9.
  apply wp_bind, both_mutate. intros st10 H10 P10. stepped H P H10 P10.
  apply wp_bind, both_try_updateJob. intros st11 H11 P11. stepped H P H11 P11.
  apply wp_bind.
  destruct (getSignedUrl E _ _ _) as [err|url].
  { apply wp_throw. by eexists. }
  apply wp_ret, wp_bind, both_new_Date. intros now4 st12 H12 P12. stepped H P H12 P12.
  apply wp_bind, both_mutate. intros st13 H13 P13. stepped H P H13 P13.
  apply both_try_updateJob. intros st14 H14 P14. stepped H P H14 P14.
  by eexists.
Qed.

Lemma collect_known n keys st :
  (∀ i k, keys !! i = Some k → fetch_ok (s3_get E i "source" k)) →
  wp (collect E id n 0 keys [])
    (λ r st',
       ∃ tempFiles,
         r = inr tempFiles
         ∧ Forall (consistent E) tempFiles
         ∧ entries tempFiles = fetched E 0 keys
         ∧ Moves id st st' (collects n 0 (length keys)) []
         ∧ Puts st st' []) st.
Proof.
  intros Hall.
  eapply wp_mono;
    [apply (wp_conj _ _ _ _ (collect_spec E id n keys 0 [] st (Forall_nil_2 _))
              (collect_entries E id n keys 0 [] st))|].
  intros [e|tempFiles] st'; cbn [Nat.add].
  - intros [(before & key & after & inner & -> & _ & Hf & _) _].
    destruct (fetch_fails_not_ok _ _ _ Hf). apply Hall. by rewrite list_lookup_middle.
  - intros [(_ & Hc & Hm) [Hp He]]. by exists tempFiles.
Qed.

End Known.

Lemma background_known E id keys archiveBuffer st job0 :
  (∀ n, db_fault E n = None) →
  jobs st !! id = Some job0 →
  (∀ i k, keys !! i = Some k → fetch_ok (s3_get E i "source" k)) →
  archiver_zip E (fetched E 0 keys) = inr archiveBuffer →
  (∀ metadata,
     s3_put E (downloads_bucket E) (id +:+ ".zip") archiveBuffer metadata = None) →
  wp (background E id keys)
    (λ r st',
       ∃ metadata cs,
         Puts st st' [EvPut (downloads_bucket E) (id +:+ ".zip") archiveBuffer metadata]
         ∧ Moves id st st' cs [(downloads_bucket E, id +:+ ".zip")]
         ∧ cs = match getSignedUrl E (downloads_bucket E) (id +:+ ".zip") 3600 with
                | inr url => success_blocks (length keys) url
                | inl e =>
                    status_only processing 0
                    :: collects (length keys) 0 (length keys)
                       ++ [progress_only 30 0; progress_only 50 0; progress_only 75 0]
                       ++ failure_blocks (error_message e)
                end) st.
Proof.
  intros Hdb Hjob Hall Hzip Hput.
  assert (Hsome : is_Some (jobs st !! id)) by by eexists.
  unfold background. apply wp_try_catch.
  eapply wp_eq; [unfold processDownloadJob; by rewrite Hjob|].
  apply wp_bind, (both_new_Date E id). intros now st1 H P.
  apply wp_bind, (both_mutate id). intros st2 H2 P2. moved H H2. put P P2.
  apply wp_bind, (both_try_updateJob E id). intros st3 H3 P3. moved H H3. put P P3.
  apply wp_try_catch. unfold pipeline. apply wp_bind.
  eapply wp_mono; [by apply (collect_known E id)|].
  intros r st4 (tempFiles & -> & Hc & He & H4 & P4). moved H H4. put P P4.
  rewrite <- He in Hzip.
  eapply wp_mono; [by apply (process_collected_known E id Hdb keys tempFiles archiveBuffer)|].
  intros r st5 (metadata & P5 & Hend). put P P5.
  destruct (getSignedUrl E _ _ _) as [e|url].
  - destruct Hend as [-> H5]. moved H H5. unfold on_error.
    apply wp_bind, (both_new_Date E id). intros now' st6 H6 P6. moved H H6. put P P6.
    apply wp_bind, (both_mutate id). intros st7 H7 P7. moved H H7. put P P7.
    apply wp_bind, (both_try_updateJob E id). intros st8 H8 P8. moved H H8. put P P8.
    apply wp_bind, (both_console id). intros st9 H9 P9. moved H H9. put P P9.
    apply wp_throw. unfold on_rejected.
    apply wp_bind, (both_console id). intros st10 H10 P10. moved H H10. put P P10.
    destruct (Moves_present _ _ _ _ _ H Hsome) as [job2 Hjob2].
    eapply wp_eq; [by rewrite Hjob2|].
    apply wp_bind, (both_new_Date E id). intros now2 st11 H11 P11. moved H H11. put P P11.
    apply wp_bind, (both_mutate id). intros st12 H12 P12. moved H H12. put P P12.
    apply (both_try_updateJob E id). intros st13 H13 P13. moved H H13. put P P13.
    exists metadata. eexists. split; [done|]. split; [|reflexivity].
    revert H. rewrite ?app_nil_r, <- ?app_assoc. cbn [app]. by rewrite <- ?app_assoc.
  - destruct Hend as [-> H5]. moved H H5.
    exists metadata. eexists. split; [done|]. split; [|reflexivity].
    revert H. by rewrite ?app_nil_r, <- ?app_assoc.
Qed.

(** X20: when no database call throws, every key is fetched with bytes, the
    archiver and the upload succeed and the presigner returns [url] for the
    uploaded object with an expiry of 3600 seconds, the job ends Completed
    at 100 with every file counted and [url] as its [downloadUrl]. *)
Theorem run_completes E uuid file_keys st archiveBuffer url :
  valid_request file_keys = true →
  surviving E file_keys ≠ [] →
  (∀ n, db_fault E n = None) →
  (∀ i k, surviving E file_keys !! i = Some k → fetch_ok (s3_get E i "source" k)) →
  archiver_zip E (fetched E 0 (surviving E file_keys)) = inr archiveBuffer →
  (∀ metadata,
     s3_put E (downloads_bucket E) (uuid +:+ ".zip") archiveBuffer metadata = None) →
  getSignedUrl E (downloads_bucket E) (uuid +:+ ".zip") 3600 = inr url →
  ∃ job,
    jobs (initiate E uuid file_keys st).2 !! uuid = Some job
    ∧ status job = completed
    ∧ downloadUrl job = Some url
    ∧ error job = None
    ∧ progress job = 100
    ∧ filesCompleted job = totalFiles job.
Proof.
  intros Hv Hs Hdb Hall Hzip Hput Hsign.
  destruct (initiate_unfold E uuid file_keys st Hv Hs) as (st1 & job0 & _ & Hj0 & Hc & ->).
  pose proof (valid_request_bound E file_keys Hv Hs) as Hn.
  destruct (background_known E uuid _ archiveBuffer st1 job0 Hdb Hj0 Hall Hzip Hput)
    as (metadata & cs & _ & Hm & Hcs).
  rewrite Hsign in Hcs. subst cs.
  destruct (moves_job _ _ _ _ _ _ Hm Hj0) as (job & Hjob & Hfields).
  exists job. split; [done|].
  change (status job) with (status (untimed job)).
  change (downloadUrl job) with (downloadUrl (untimed job)).
  change (error job) with (error (untimed job)).
  change (progress job) with (progress (untimed job)).
  change (filesCompleted job) with (filesCompleted (untimed job)).
  change (totalFiles job) with (totalFiles (untimed job)).
  rewrite Hfields. clear Hfields Hjob Hm.
  destruct (start_good uuid _ (untimed job0) (created_untimed _ _ _ Hc))
    as (_ & W0 & P0 & F0).
  destruct (collects_good (length (surviving E file_keys))
              (length (surviving E file_keys)) 0 _ W0)
    as (_ & W & _ & F); [by rewrite collect_progress_zero|done|lia|].
  unfold success_blocks. rewrite apply_all_cons, apply_all_app.
  destruct W as (_ & Ht & _ & _ & Herr).
  cbn [apply_all foldl assign progress_only completed_with status downloadUrl error
       progress filesCompleted totalFiles nullish nullish_opt u_status u_progress
       u_filesCompleted u_downloadUrl u_error]. cbn [Nat.add] in F.
  by rewrite Herr, F, Ht.
Qed.

(** X21: when everything succeeds up to the upload and the presigner then
    throws, the job ends Failed at 75 with the presigner's message and no
    [downloadUrl], and the archive it uploaded stays in the bucket. *)
Theorem presign_failure_leaves_archive E uuid file_keys st archiveBuffer e :
  valid_request file_keys = true →
  surviving E file_keys ≠ [] →
  (∀ n, db_fault E n = None) →
  (∀ i k, surviving E file_keys !! i = Some k → fetch_ok (s3_get E i "source" k)) →
  archiver_zip E (fetched E 0 (surviving E file_keys)) = inr archiveBuffer →
  (∀ metadata,
     s3_put E (downloads_bucket E) (uuid +:+ ".zip") archiveBuffer metadata = None) →
  getSignedUrl E (downloads_bucket E) (uuid +:+ ".zip") 3600 = inl e →
  (∃ job,
     jobs (initiate E uuid file_keys st).2 !! uuid = Some job
     ∧ status job = failed
     ∧ error job = Some (error_message e)
     ∧ downloadUrl job = None
     ∧ progress job = 75)
  ∧ ∃ metadata,
      put_events (trace (initiate E uuid file_keys st).2)
      = put_events (trace st)
        ++ [EvPut (downloads_bucket E) (uuid +:+ ".zip") archiveBuffer metadata].
Proof.
  intros Hv Hs Hdb Hall Hzip Hput Hsign.
  destruct (initiate_unfold E uuid file_keys st Hv Hs) as (st1 & job0 & Hp & Hj0 & Hc & ->).
  pose proof (valid_request_bound E file_keys Hv Hs) as Hn.
  destruct (background_known E uuid _ archiveBuffer st1 job0 Hdb Hj0 Hall Hzip Hput)
    as (metadata & cs & Hputs & Hm & Hcs).
  rewrite Hsign in Hcs. subst cs. split.
  - destruct (moves_job _ _ _ _ _ _ Hm Hj0) as (job & Hjob & Hfields).
    exists job. split; [done|].
    change (status job) with (status (untimed job)).
    change (downloadUrl job) with (downloadUrl (untimed job)).
    change (error job) with (error (untimed job)).
    change (progress job) with (progress (untimed job)).
    rewrite Hfields. clear Hfields Hjob Hm.
    destruct (start_good uuid _ (untimed job0) (created_untimed _ _ _ Hc))
      as (_ & W0 & P0 & F0).
    destruct (collects_good (length (surviving E file_keys))
                (length (surviving E file_keys)) 0 _ W0)
      as (_ & W & _ & _); [by rewrite collect_progress_zero|done|lia|].
    rewrite apply_all_cons, apply_all_app.
    destruct W as (_ & _ & _ & Hurl & _).
    cbn [apply_all foldl assign progress_only failed_with failure_blocks app status
         downloadUrl error progress nullish nullish_opt u_status u_progress
         u_filesCompleted u_downloadUrl u_error].
    by rewrite Hurl.
  - exists metadata. unfold Puts in Hputs. by rewrite Hputs, Hp.
Qed.

(** X22: a run uploads nothing, or one object and no more: the one under
    ["{id}.zip"] in the downloads bucket. *)
Theorem uploads_at_most_one E uuid file_keys st :
  valid_request file_keys = true →
  surviving E file_keys ≠ [] →
  uploads (trace (initiate E uuid file_keys st).2) = uploads (trace st)
  ∨ uploads (trace (initiate E uuid file_keys st).2)
    = uploads (trace st) ++ [(downloads_bucket E, uuid +:+ ".zip")].
Proof.
  intros Hv Hs.
  destruct (run_history E uuid file_keys st Hv Hs)
    as (job & us & ps & _ & _ & _ & Hu & Ho & _).
  rewrite Hu. destruct Ho as [e cs ps [| |]|]; [left|left|right|right];
    by rewrite ?app_nil_r.
Qed.

Lemma uploads_at_most_one_witness :
  valid_request ["a.txt"] = true
  ∧ (uploads (trace (initiate unsigned_env "job-1" ["a.txt"] empty_state).2)
     = uploads (trace empty_state)
     ∨ uploads (trace (initiate unsigned_env "job-1" ["a.txt"] empty_state).2)
       = uploads (trace empty_state)
         ++ [(downloads_bucket unsigned_env, "job-1" +:+ ".zip")]).
Proof.
  split; [reflexivity|].
  apply (uploads_at_most_one unsigned_env "job-1" ["a.txt"] empty_state).
  - reflexivity.
  - vm_compute. discriminate.
Defined.

Lemma run_completes_witness :
  ∃ job,
    jobs (initiate demo_env "job-1" ["a.txt"; "b.txt"] empty_state).2 !! "job-1"
    = Some job
    ∧ status job = completed
    ∧ downloadUrl job = Some "http://localhost:9000/downloads/job-1.zip"
    ∧ error job = None
    ∧ progress job = 100
    ∧ filesCompleted job = totalFiles job.
Proof.
  apply (run_completes demo_env "job-1" ["a.txt"; "b.txt"] empty_state
           [Byte.x2a; Byte.x2a]).
  - reflexivity.
  - vm_compute. discriminate.
  - intros n. reflexivity.
  - intros i k Hk. destruct i as [|[|i]]; [| |destruct i; discriminate Hk];
      injection Hk as <-; exists [Byte.x2a]; (split; [reflexivity|discriminate]).
  - vm_compute. reflexivity.
  - intros metadata. reflexivity.
  - vm_compute. reflexivity.
Defined.

Lemma presign_failure_leaves_archive_witness :
  (∃ job,
     jobs (initiate unsigned_env "job-1" ["a.txt"] empty_state).2 !! "job-1" = Some job
     ∧ status job = failed
     ∧ error job = Some (error_message (ErrorObj "Could not load credentials"))
     ∧ downloadUrl job = None
     ∧ progress job = 75)
  ∧ ∃ metadata,
      put_events (trace (initiate unsigned_env "job-1" ["a.txt"] empty_state).2)
      = put_events (trace empty_state)
        ++ [EvPut (downloads_bucket unsigned_env) ("job-1" +:+ ".zip") [Byte.x2a]
              metadata].
Proof.
  apply (presign_failure_leaves_archive unsigned_env "job-1" ["a.txt"] empty_state
           [Byte.x2a] (ErrorObj "Could not load credentials")).
  - reflexivity.
  - vm_compute. discriminate.
  - intros n. reflexivity.
  - intros i k Hk. destruct i as [|i]; [|destruct i; discriminate Hk].
    injection Hk as <-. exists [Byte.x2a]. split; [reflexivity|discriminate].
  - vm_compute. reflexivity.
  - intros metadata. reflexivity.
  - reflexivity.
Defined.
